(** * yabridge: the Wine host's event loop, thread and timer wrappers, and the
      [YaUnitHandler2] construction arguments

    A shallow embedding of [src/wine-host/utils.h] and of
    [src/common/serialization/vst3/component-handler/unit-handler-2.h].

    Conventions.
    - [std::chrono] time points and durations are integer tick counts.  The
      steady clock counts nanoseconds in a signed 64-bit integer; overflow of
      that arithmetic is undefined in C++, so the model computes in [Z] and
      never wraps.
    - Boost.Asio ([io_context], [steady_timer]), the Win32 API and bitsery are
      libraries the two headers call into.  Their documented behaviour is
      modelled next to the code that uses it, and said so.
    - Every event log is kept newest first. *)

From Stdlib Require Import ZArith List Bool Lia.
From Stdlib.Strings Require Import Byte.
From stdpp Require Import gmap list.
Import ListNotations.

(** ** std::chrono *)

Module Chrono.

(** A duration is a count of ticks; the period is part of the C++ type. *)
Definition milliseconds (count : Z) : Z := count.

(** [operator/] of a duration by an integer divides the count, truncating
    towards zero as C++ integer division does. *)
Definition div (d k : Z) : Z := Z.quot d k.

(** Adding a [milliseconds] value to a [steady_clock::time_point] first
    converts it to the clock's period, nanoseconds. *)
Definition to_ns (ms : Z) : Z := ms * 1000000.

End Chrono.

(** ** PluginContext *)

Module EventLoop.

Local Open Scope Z_scope.

(** [constexpr std::chrono::duration event_loop_interval =
      std::chrono::milliseconds(1000) / 30;]  (a count of milliseconds) *)
Definition event_loop_interval : Z :=
  Chrono.div (Chrono.milliseconds 1000) 30.

(** The [std::chrono::milliseconds(5)] of [async_handle_events]. *)
Definition minimum_gap : Z := Chrono.milliseconds 5.

(** [boost::system::error_code], as far as a timer wait can complete. *)
Inductive error_code : Type :=
| success
| operation_aborted
| other_error (value : Z).

Definition failed (error : error_code) : bool :=
  match error with
  | success => false
  | _ => true
  end.

Section WithHandler.

(** [F], the template parameter of [async_handle_events]: the callable run on
    every tick.  The model never looks inside it. *)
Context {F : Type}.

(** What the reactor thread is doing. *)
Inductive Pc : Type :=
| Idle                 (* between completion handlers *)
| InHandler (h : F).   (* inside [handler()], line 89 *)

(** Observable events, with the steady-clock reading where it matters. *)
Inductive Event : Type :=
| EvSetActive (b : bool)                     (* a store to [event_loop_active] *)
| EvHandlerCall (h : F) (scheduled t : Z)   (* [handler()] is entered *)
| EvHandlerReturn (h : F) (t : Z)            (* [handler()] has returned *)
| EvHandlerThrow (h : F) (t : Z)             (* [handler()] has thrown *)
| EvExpiresAt (t : Z)                        (* [events_timer.expires_at(t)] *)
| EvAsyncWait (h : F).                       (* [events_timer.async_wait(..)] *)

(** [boost::asio::steady_timer]: its expiry and the waits pending on it.  A
    pending wait of [events_timer] is always the lambda of
    [async_handle_events]; it is represented by the [handler] it captured. *)
Record steady_timer : Type := {
  expiry : Z;
  waiting : list F
}.

(** [boost::asio::io_context]: the completion handlers queued for invocation,
    each with the [error_code] it will receive, and the stopped flag. *)
Record io_context : Type := {
  ready : list (F * error_code);
  stopped : bool
}.

(** The data members of [class PluginContext]. *)
Record PluginContext : Type := {
  event_loop_active : bool;
  context : io_context;
  events_timer : steady_timer
}.

(** A [PluginContext] together with the steady clock, the reactor thread's
    position and the log of what happened so far. *)
Record World : Type := {
  plugin_context : PluginContext;
  now : Z;
  pc : Pc;
  log : list Event
}.

Definition active (w : World) : bool := event_loop_active (plugin_context w).
Definition timer (w : World) : steady_timer := events_timer (plugin_context w).
Definition ctx (w : World) : io_context := context (plugin_context w).

Definition with_context (f : PluginContext -> PluginContext) (w : World) : World :=
  {| plugin_context := f (plugin_context w);
     now := now w; pc := pc w; log := log w |}.

Definition emit (e : Event) (w : World) : World :=
  {| plugin_context := plugin_context w;
     now := now w; pc := pc w; log := e :: log w |}.

Definition goto (p : Pc) (w : World) : World :=
  {| plugin_context := plugin_context w;
     now := now w; pc := p; log := log w |}.

(** [event_loop_active = b;] *)
Definition set_event_loop_active (b : bool) (w : World) : World :=
  emit (EvSetActive b)
    (with_context (fun c =>
       {| event_loop_active := b;
          context := context c;
          events_timer := events_timer c |}) w).

(** [events_timer.expires_at(t)].  Boost.Asio: "Any pending asynchronous wait
    operations will be cancelled.  The handler for each cancelled operation
    will be invoked with the [operation_aborted] error code." *)
Definition expires_at (t : Z) (w : World) : World :=
  emit (EvExpiresAt t)
    (with_context (fun c =>
       {| event_loop_active := event_loop_active c;
          context :=
            {| ready := ready (context c)
                          ++ map (fun h => (h, operation_aborted))
                                 (waiting (events_timer c));
               stopped := stopped (context c) |};
          events_timer := {| expiry := t; waiting := [] |} |}) w).

(** [events_timer.async_wait(lambda)], the lambda having captured [handler]. *)
Definition async_wait (handler : F) (w : World) : World :=
  emit (EvAsyncWait handler)
    (with_context (fun c =>
       {| event_loop_active := event_loop_active c;
          context := context c;
          events_timer :=
            {| expiry := expiry (events_timer c);
               waiting := waiting (events_timer c) ++ [handler] |} |}) w).

(** The firing time computed on lines 79-81. *)
Definition next_expiry (w : World) : Z :=
  Z.max (expiry (timer w) + Chrono.to_ns event_loop_interval)
        (now w + Chrono.to_ns minimum_gap).

(** [PluginContext::async_handle_events(F handler)], lines 76-94. *)
Definition async_handle_events (handler : F) (w : World) : World :=
  async_wait handler (expires_at (next_expiry w) w).

(** The lambda passed to [async_wait], lines 83-93, cut at the one place
    where control leaves it: the call [handler()].

    [on_wait_enter] is lines 84-89, up to and including the call. *)
Definition on_wait_enter (handler : F) (error : error_code) (w : World) : World :=
  if failed error then
    w
  else
    let w1 := set_event_loop_active true w in
    goto (InHandler handler)
      (emit (EvHandlerCall handler (expiry (timer w1)) (now w1)) w1).

(** [on_wait_resume] is lines 89-92, from the return of [handler()]. *)
Definition on_wait_resume (handler : F) (w : World) : World :=
  let w1 := goto Idle (emit (EvHandlerReturn handler (now w)) w) in
  let w2 := set_event_loop_active false w1 in
  async_handle_events handler w2.

(** The lambda has no [try] and no scope guard around line 89: an exception
    thrown by [handler()] leaves the lambda there, so that neither line 90
    nor line 92 runs, and goes on through [context.run()] to its caller. *)
Definition on_wait_throw (handler : F) (w : World) : World :=
  goto Idle (emit (EvHandlerThrow handler (now w)) w).

(** Modelled from the spec: [PluginContext::stop()] is only declared in
    utils.h, its body lives in utils.cpp.  The spec has it cancel
    all pending and future scheduled work, and the header comment adds that
    the thread inside [run()] need not return at once.  So [stop] raises the
    context's stopped flag, and the reactor below starts no completion handler
    while the flag is up; what is already running is not touched. *)
Definition stop (w : World) : World :=
  with_context (fun c =>
    {| event_loop_active := event_loop_active c;
       context := {| ready := ready (context c); stopped := true |};
       events_timer := events_timer c |}) w.

(** *** The reactor

    What [context.run()] on its single thread, the clock and the other
    threads can do, one action at a time. *)
Inductive Action : Type :=
| Elapse (d : N)   (* the steady clock advances by [d] nanoseconds *)
| Expire           (* the run loop finds the timer expired *)
| Dispatch         (* the run loop invokes the next ready completion handler *)
| Return           (* the running [handler()] returns *)
| Throw            (* the running [handler()] throws *)
| Stop.            (* some thread calls [stop()] *)

Definition elapse (d : N) (w : World) : World :=
  {| plugin_context := plugin_context w;
     now := now w + Z.of_N d; pc := pc w; log := log w |}.

(** The timer's pending waits complete successfully and are queued. *)
Definition complete_waits (w : World) : World :=
  with_context (fun c =>
    {| event_loop_active := event_loop_active c;
       context :=
         {| ready := ready (context c)
                       ++ map (fun h => (h, success)) (waiting (events_timer c));
            stopped := stopped (context c) |};
       events_timer :=
         {| expiry := expiry (events_timer c); waiting := [] |} |}) w.

Definition pop_ready (w : World) : World :=
  with_context (fun c =>
    {| event_loop_active := event_loop_active c;
       context := {| ready := tl (ready (context c));
                     stopped := stopped (context c) |};
       events_timer := events_timer c |}) w.

Definition is_idle (w : World) : bool :=
  match pc w with Idle => true | InHandler _ => false end.

(** One action; [None] when the action is not possible in [w].  A timer never
    fires before its expiry, and the single reactor thread starts nothing
    while it is inside a handler or after the context was stopped. *)
Definition step (a : Action) (w : World) : option World :=
  match a with
  | Elapse d => Some (elapse d w)
  | Expire =>
      if is_idle w && negb (stopped (ctx w)) && (expiry (timer w) <=? now w)
         && negb (match waiting (timer w) with [] => true | _ => false end)
      then Some (complete_waits w) else None
  | Dispatch =>
      if is_idle w && negb (stopped (ctx w)) then
        match ready (ctx w) with
        | (h, error) :: _ => Some (on_wait_enter h error (pop_ready w))
        | [] => None
        end
      else None
  | Return =>
      match pc w with
      | InHandler h => Some (on_wait_resume h w)
      | Idle => None
      end
  | Throw =>
      match pc w with
      | InHandler h => Some (on_wait_throw h w)
      | Idle => None
      end
  | Stop => Some (stop w)
  end.

Fixpoint run (acts : list Action) (w : World) : option World :=
  match acts with
  | [] => Some w
  | a :: rest =>
      match step a w with
      | Some w' => run rest w'
      | None => None
      end
  end.

(** A context on which nothing is scheduled.  [PluginContext()] is defined in
    utils.cpp; the flag and the expiry it leaves behind are parameters. *)
Definition fresh (flag : bool) (e0 : Z) : PluginContext :=
  {| event_loop_active := flag;
     context := {| ready := []; stopped := false |};
     events_timer := {| expiry := e0; waiting := [] |} |}.

(** The reactor thread idle at time [t0], nothing logged yet. *)
Definition boot (c : PluginContext) (t0 : Z) : World :=
  {| plugin_context := c; now := t0; pc := Idle; log := [] |}.

(** *** Reading the log *)

(** Where the reactor thread is within a tick. *)
Inductive Phase : Type :=
| PhQuiet      (* outside the lambda's body *)
| PhRaised     (* [event_loop_active = true] done, handler not yet entered *)
| PhRunning    (* inside [handler()] *)
| PhReturned   (* [handler()] returned, flag not yet reset *)
| PhLowered    (* [event_loop_active = false] done *)
| PhTimed.     (* new expiry set, wait not yet issued *)

(** The only orders in which events may follow each other.  A handler is
    entered only right after the flag was raised, the flag is lowered right
    after the handler returned, and a wait is issued only afterwards; no
    handler is entered while one is running.  A handler that throws ends
    the lambda on the spot.  [async_handle_events] may also be called from
    outside a tick. *)
Definition advance (q : Phase) (e : Event) : option Phase :=
  match q, e with
  | PhQuiet, EvSetActive true => Some PhRaised
  | PhRaised, EvHandlerCall _ _ _ => Some PhRunning
  | PhRunning, EvHandlerReturn _ _ => Some PhReturned
  | PhRunning, EvHandlerThrow _ _ => Some PhQuiet
  | PhReturned, EvSetActive false => Some PhLowered
  | PhLowered, EvExpiresAt _ => Some PhTimed
  | PhQuiet, EvExpiresAt _ => Some PhTimed
  | PhTimed, EvAsyncWait _ => Some PhQuiet
  | _, _ => None
  end.

(** The phase a log ends in, [None] if it breaks the order. *)
Fixpoint phase_of (l : list Event) : option Phase :=
  match l with
  | [] => Some PhQuiet
  | e :: older =>
      match phase_of older with
      | Some q => advance q e
      | None => None
      end
  end.

Definition phase_at (p : Pc) : Phase :=
  match p with Idle => PhQuiet | InHandler _ => PhRunning end.

(** The ticks of a log, newest first: for each entry into a handler the
    expiry the timer was set to and the time the handler was entered. *)
Fixpoint ticks (l : list Event) : list (Z * Z) :=
  match l with
  | [] => []
  | EvHandlerCall _ scheduled t :: older => (scheduled, t) :: ticks older
  | _ :: older => ticks older
  end.

(** Consecutive times of a newest-first list are at least [gap] apart. *)
Fixpoint spaced (gap : Z) (ts : list Z) : Prop :=
  match ts with
  | [] => True
  | t' :: older =>
      match older with
      | [] => True
      | t :: _ => t + gap <= t'
      end /\ spaced gap older
  end.

(** A tick entered exactly at its scheduled time. *)
Definition punctual (tk : Z * Z) : Prop := snd tk = fst tk.

(** A tick scheduled at [x] keeps its distance from the newest tick of [ts]:
    a full interval from its scheduled time, the minimum gap from its entry. *)
Definition clear_of (ts : list (Z * Z)) (x : Z) : Prop :=
  match ts with
  | [] => True
  | (e, t) :: _ =>
      e + Chrono.to_ns event_loop_interval <= x /\
      t + Chrono.to_ns minimum_gap <= x
  end.

Fixpoint well_spaced (ts : list (Z * Z)) : Prop :=
  match ts with
  | [] => True
  | (e, t) :: older => e <= t /\ clear_of older e /\ well_spaced older
  end.

(** The state of one self-rescheduling chain: a single wait is outstanding,
    pending on the timer or queued as completed, or its handler is running;
    or nothing is outstanding any more, after a handler has thrown. *)
Definition chain_inv (w : World) : Prop :=
  well_spaced (ticks (log w)) /\
  match pc w with
  | Idle =>
      (waiting (timer w) = [] /\ ready (ctx w) = []) \/
      (clear_of (ticks (log w)) (expiry (timer w)) /\
       ((exists h, waiting (timer w) = [h] /\ ready (ctx w) = []) \/
        (exists h, waiting (timer w) = [] /\ ready (ctx w) = [(h, success)] /\
                   expiry (timer w) <= now w)))
  | InHandler _ =>
      waiting (timer w) = [] /\ ready (ctx w) = [] /\
      exists t older, ticks (log w) = (expiry (timer w), t) :: older /\ t <= now w
  end.

(** Nothing is outstanding: no wait pending, none queued, no handler running. *)
Definition drained (w : World) : Prop :=
  pc w = Idle /\ waiting (timer w) = [] /\ ready (ctx w) = [].

(** The reactor is idle and running, and the one pending wait expires [d]
    nanoseconds from now. *)
Definition poised (d : N) (w : World) : Prop :=
  pc w = Idle /\ stopped (ctx w) = false /\ ready (ctx w) = [] /\
  (exists h, waiting (timer w) = [h]) /\
  expiry (timer w) = now w + Z.of_N d.

(** How many handlers threw. *)
Fixpoint throws (l : list Event) : nat :=
  match l with
  | [] => O
  | EvHandlerThrow _ _ :: older => S (throws older)
  | _ :: older => throws older
  end.

(** A handler threw and [event_loop_active] was not set to [false] since. *)
Fixpoint thrown_last (l : list Event) : bool :=
  match l with
  | [] => false
  | EvHandlerThrow _ _ :: _ => true
  | EvSetActive false :: _ => false
  | _ :: older => thrown_last older
  end.

(** [event_loop_active] is up exactly inside a handler and after a handler
    that threw, and the log keeps the order of [advance]. *)
Definition flag_inv (w : World) : Prop :=
  active w = negb (is_idle w) || thrown_last (log w) /\
  phase_of (log w) = Some (phase_at (pc w)).

(** The context is stopped and the log holds the ticks [ts]. *)
Definition halted (ts : list (Z * Z)) (w : World) : Prop :=
  stopped (ctx w) = true /\ ticks (log w) = ts.

(** Nothing is outstanding, and log, flag and timer are those of [w0]. *)
Definition frozen (w0 : World) (w : World) : Prop :=
  drained w /\ log w = log w0 /\ active w = active w0 /\ timer w = timer w0.

(** *** More ways to read the log *)

(** The handlers entered, newest first. *)
Fixpoint called (l : list Event) : list F :=
  match l with
  | [] => []
  | EvHandlerCall h _ _ :: older => h :: called older
  | _ :: older => called older
  end.

(** The time of the newest handler return. *)
Fixpoint last_return (l : list Event) : option Z :=
  match l with
  | [] => None
  | EvHandlerReturn _ t :: _ => Some t
  | _ :: older => last_return older
  end.

(** The times at which handlers returned, newest first. *)
Fixpoint returned_at (l : list Event) : list Z :=
  match l with
  | [] => []
  | EvHandlerReturn _ t :: older => t :: returned_at older
  | _ :: older => returned_at older
  end.

(** Every handler is entered at least [gap] after the return before it. *)
Fixpoint rested (gap : Z) (l : list Event) : Prop :=
  match l with
  | [] => True
  | EvHandlerCall _ _ t :: older =>
      match last_return older with
      | Some r => r + gap <= t
      | None => True
      end /\ rested gap older
  | _ :: older => rested gap older
  end.

(** Every handler returned within [slack] of the time its tick was
    scheduled for. *)
Fixpoint timely (slack : Z) (l : list Event) : Prop :=
  match l with
  | [] => True
  | EvHandlerReturn _ r :: older =>
      match ticks older with
      | (e, _) :: _ => r <= e + slack
      | [] => True
      end /\ timely slack older
  | _ :: older => timely slack older
  end.

(** Consecutive times of a newest-first list are exactly [gap] apart. *)
Fixpoint evenly_spaced (gap : Z) (ts : list Z) : Prop :=
  match ts with
  | [] => True
  | t' :: older =>
      match older with
      | [] => True
      | t :: _ => t' = t + gap
      end /\ evenly_spaced gap older
  end.

(** How often [event_loop_active] was set to [b]. *)
Fixpoint stores (b : bool) (l : list Event) : nat :=
  match l with
  | [] => O
  | EvSetActive b' :: older =>
      if Bool.eqb b b' then S (stores b older) else stores b older
  | _ :: older => stores b older
  end.

(** How many handlers returned. *)
Fixpoint returns (l : list Event) : nat :=
  match l with
  | [] => O
  | EvHandlerReturn _ _ :: older => S (returns older)
  | _ :: older => returns older
  end.

(** How often the timer was set. *)
Fixpoint settings (l : list Event) : nat :=
  match l with
  | [] => O
  | EvExpiresAt _ :: older => S (settings older)
  | _ :: older => settings older
  end.


(** A chain in which every handler so far was entered after a rest of the
    minimum gap, and the pending wait keeps that rest too. *)
Definition rested_inv (w : World) : Prop :=
  chain_inv w /\
  rested (Chrono.to_ns minimum_gap) (log w) /\
  match last_return (log w) with
  | Some r => r + Chrono.to_ns minimum_gap <= expiry (timer w)
  | None => True
  end.

(** The slack a handler has before it delays the next tick. *)
Definition slack : Z := Chrono.to_ns event_loop_interval - Chrono.to_ns minimum_gap.

(** A chain whose ticks, as long as its handlers were timely, are scheduled
    a full interval apart. *)
Definition steady_inv (w : World) : Prop :=
  chain_inv w /\
  (timely slack (log w) ->
   evenly_spaced (Chrono.to_ns event_loop_interval) (map fst (ticks (log w))) /\
   match pc w, ticks (log w) with
   | Idle, (e, _) :: _ =>
       (waiting (timer w) = [] /\ ready (ctx w) = []) \/
       expiry (timer w) = e + Chrono.to_ns event_loop_interval
   | _, _ => True
   end).

(** The flag was stored to twice per handler that returned, once for one
    that threw and once for the one that runs. *)
Definition stores_inv (w : World) : Prop :=
  stores true (log w) = length (ticks (log w)) /\
  stores false (log w) = returns (log w) /\
  length (ticks (log w)) =
    (returns (log w) + throws (log w) + if is_idle w then 0 else 1)%nat.

(** The timer moved forward by an interval each time it was set. *)
Definition forward_inv (e0 t0 : Z) (w : World) : Prop :=
  e0 + Chrono.to_ns event_loop_interval * Z.of_nat (settings (log w))
    <= expiry (timer w) /\
  t0 <= now w.

Definition is_stop (a : Action) : bool :=
  match a with Stop => true | _ => false end.

Definition is_return (a : Action) : bool :=
  match a with Return => true | _ => false end.

Definition is_throw (a : Action) : bool :=
  match a with Throw => true | _ => false end.

(** How many things are outstanding: waits pending on the timer,
    completions queued for the reactor, the handler that runs. *)
Definition outstanding (w : World) : nat :=
  (length (waiting (timer w)) + length (ready (ctx w))
   + if is_idle w then 0 else 1)%nat.

(** One thing is outstanding, and it belongs to [h]; nothing is once a
    handler has thrown. *)
Definition single_inv (h : F) (w : World) : Prop :=
  match throws (log w) with
  | O => outstanding w = 1%nat
  | S _ => outstanding w = 0%nat
  end /\
  Forall (eq h) (waiting (timer w)) /\
  Forall (eq (h, success)) (ready (ctx w)) /\
  match pc w with Idle => True | InHandler h' => h' = h end.

(** Every tick after the first was scheduled by the rule of
    [async_handle_events]: an interval after the tick before it was
    scheduled, or the minimum gap after that one's handler returned,
    whichever is later. *)
Fixpoint by_rule (l : list Event) : Prop :=
  match l with
  | [] => True
  | EvHandlerCall _ e _ :: older =>
      match ticks older, last_return older with
      | (e0, _) :: _, Some r =>
          e = Z.max (e0 + Chrono.to_ns event_loop_interval)
                    (r + Chrono.to_ns minimum_gap)
      | _, _ => True
      end /\ by_rule older
  | _ :: older => by_rule older
  end.

(** A chain whose ticks were scheduled by the rule, the pending one too. *)
Definition rule_inv (w : World) : Prop :=
  chain_inv w /\
  by_rule (log w) /\
  match pc w, ticks (log w), last_return (log w) with
  | Idle, (e0, _) :: _, Some r =>
      (waiting (timer w) = [] /\ ready (ctx w) = []) \/
      expiry (timer w) = Z.max (e0 + Chrono.to_ns event_loop_interval)
                               (r + Chrono.to_ns minimum_gap)
  | _, _, _ => True
  end.

End WithHandler.

Arguments fresh F flag e0 : clear implicits.
Arguments World F : clear implicits.
Arguments PluginContext F : clear implicits.

(** *** Concrete runs *)

Definition ms (n : N) : N := n * 1000000.

(** An otherwise idle reactor with an instantaneous handler: the clock runs
    up to the expiry, which is [d] away, the timer is found expired at once,
    the handler is entered and returns without the clock advancing. *)
Definition prompt_tick (d : N) : list Action :=
  [Elapse d; Expire; Dispatch; Return].

(** How long the first wait of a chain lasts, started at [t0] on a timer
    whose expiry was [e0]. *)
Definition first_wait (e0 t0 : Z) : N :=
  Z.to_N (Z.max (e0 + Chrono.to_ns event_loop_interval)
                (t0 + Chrono.to_ns minimum_gap) - t0).

(** [n] such ticks of a chain started at [t0]. *)
Definition prompt_ticks (e0 t0 : Z) (n : nat) : list Action :=
  match n with
  | O => []
  | S k => prompt_tick (first_wait e0 t0) ++ concat (repeat (prompt_tick (ms 33)) k)
  end.

Definition ten_prompt_ticks : list Action := prompt_ticks 0 0 10.

(** Two ticks, the first with a handler that takes 100 ms. *)
Definition slow_ticks : list Action :=
  [Elapse (ms 5); Expire; Dispatch; Elapse (ms 100); Return;
   Elapse (ms 5); Expire; Dispatch; Return].

Definition started (t0 : Z) : World nat :=
  async_handle_events 7%nat (boot (fresh nat false 0) t0).

(** The world a run ends in; the starting world when the run is impossible. *)
Definition outcome (acts : list Action) (w : World nat) : World nat :=
  match run acts w with Some w' => w' | None => w end.

(** The context [started 0] leaves behind, taken up with an empty log. *)
Definition armed : PluginContext nat := plugin_context (started 0).

Definition in_first_handler : list Action :=
  [Elapse (ms 33); Expire; Dispatch; Elapse (ms 2)].

Definition w_in_handler : World nat :=
  Eval vm_compute in outcome in_first_handler (boot armed 0).

Definition w_slow : World nat :=
  Eval vm_compute in outcome slow_ticks (started 1000000000).

Definition w_ten : World nat :=
  Eval vm_compute in outcome ten_prompt_ticks (started 0).

Definition after_stop : list Action :=
  [Return; Elapse (ms 40); Stop; Elapse (ms 40)].

Definition w_stopped : World nat :=
  Eval vm_compute in outcome after_stop (stop w_in_handler).

(** A context whose only outstanding wait was cancelled. *)
Definition cancelled : PluginContext nat :=
  {| event_loop_active := false;
     context := {| ready := [(7%nat, operation_aborted)]; stopped := false |};
     events_timer := {| expiry := 33000000; waiting := [] |} |}.

Definition w_cancelled : World nat :=
  Eval vm_compute in outcome [Dispatch; Elapse (ms 50); Stop] (boot cancelled 0).




(** Two ticks, the first dispatched 20 ms late, with a handler that takes
    5 ms. *)
Definition late_ticks : list Action :=
  [Elapse (ms 53); Expire; Dispatch; Elapse (ms 5); Return;
   Elapse (ms 8); Expire; Dispatch; Return].

Definition w_late : World nat :=
  Eval vm_compute in outcome late_ticks (started 0).

Definition w_one_tick : World nat :=
  Eval vm_compute in outcome (prompt_tick (ms 33)) (boot armed 0).

(** The first handler runs for 2 ms and returns. *)
Definition first_handler_returns : list Action := in_first_handler ++ [Return].

Definition w_returned : World nat :=
  Eval vm_compute in outcome first_handler_returns (boot armed 0).

(** The first handler runs for 2 ms and throws. *)
Definition first_handler_throws : list Action := in_first_handler ++ [Throw].

Definition w_thrown : World nat :=
  Eval vm_compute in outcome first_handler_throws (boot armed 0).

(** Instantaneous handlers, the first dispatched 28 ms late. *)
Definition late_instant_ticks : list Action :=
  [Elapse (ms 61); Expire; Dispatch; Return;
   Elapse (ms 5); Expire; Dispatch; Return].

Definition w_late_instant : World nat :=
  Eval vm_compute in outcome late_instant_ticks (started 0).

Section Facts.

Context {F : Type}.

(** *** Facts about single steps *)

(** Evaluate the operations on a world given by its fields. *)
Ltac world_cbv :=
  cbv [on_wait_resume on_wait_enter on_wait_throw async_handle_events next_expiry
       async_wait expires_at set_event_loop_active complete_waits pop_ready
       stop elapse emit goto with_context active timer ctx is_idle boot fresh
       plugin_context now pc log event_loop_active context events_timer
       expiry waiting ready stopped].

Ltac world_cbv_in H :=
  cbv [on_wait_resume on_wait_enter on_wait_throw async_handle_events next_expiry
       async_wait expires_at set_event_loop_active complete_waits pop_ready
       stop elapse emit goto with_context active timer ctx is_idle boot fresh
       plugin_context now pc log event_loop_active context events_timer
       expiry waiting ready stopped] in H.

Ltac fields w :=
  let a := fresh "flag" in let r := fresh "rdy" in let s := fresh "stp" in
  let e := fresh "exp" in let q := fresh "wts" in let n := fresh "clk" in
  let p := fresh "at_pc" in let l := fresh "lg" in
  destruct w as [[a [r s] [e q]] n p l].

Lemma run_app (acts1 acts2 : list Action) (w : World F) :
  run (acts1 ++ acts2) w =
  match run acts1 w with Some w' => run acts2 w' | None => None end.
Proof.
  revert w; induction acts1 as [|a acts1 IH]; intros w; cbn [app run].
  - reflexivity.
  - destruct (step a w); [apply IH | reflexivity].
Qed.

(** Any property kept by every step is kept by every run. *)
Lemma run_invariant (P : World F -> Prop) :
  (forall a w w', P w -> step a w = Some w' -> P w') ->
  forall acts w w', P w -> run acts w = Some w' -> P w'.
Proof.
  intros Hstep acts; induction acts as [|a acts IH]; intros w w' HP Hrun;
    cbn [run] in Hrun.
  - congruence.
  - destruct (step a w) as [w1|] eqn:Hs; [|discriminate].
    eapply IH; [eapply Hstep|]; eassumption.
Qed.

Lemma on_wait_enter_failed (h : F) (error : error_code) (w : World F) :
  failed error = true -> on_wait_enter h error w = w.
Proof. intros H; unfold on_wait_enter; rewrite H; reflexivity. Qed.

(** What each action needs and does, on a world given by its fields. *)
Lemma step_cases (a : Action) (w w' : World F) :
  step a w = Some w' ->
  match a with
  | Elapse d => w' = elapse d w
  | Expire =>
      pc w = Idle /\ stopped (ctx w) = false /\ expiry (timer w) <= now w /\
      waiting (timer w) <> [] /\ w' = complete_waits w
  | Dispatch =>
      pc w = Idle /\ stopped (ctx w) = false /\
      exists h error rest, ready (ctx w) = (h, error) :: rest /\
        w' = on_wait_enter h error (pop_ready w)
  | Return => exists h, pc w = InHandler h /\ w' = on_wait_resume h w
  | Throw => exists h, pc w = InHandler h /\ w' = on_wait_throw h w
  | Stop => w' = stop w
  end.
Proof.
  destruct a; cbn [step]; intros Hs.
  - congruence.
  - destruct (is_idle w) eqn:Hi; [|discriminate].
    destruct (stopped (ctx w)); [discriminate|].
    destruct (expiry (timer w) <=? now w) eqn:Hle; [|discriminate].
    destruct (waiting (timer w)) eqn:Hw; [discriminate|].
    cbn in Hs. apply Z.leb_le in Hle.
    unfold is_idle in Hi. destruct (pc w); [|discriminate].
    repeat split; congruence.
  - destruct (is_idle w) eqn:Hi; [|discriminate].
    destruct (stopped (ctx w)); [discriminate|].
    destruct (ready (ctx w)) as [|[h error] rest]; [discriminate|].
    cbn in Hs. unfold is_idle in Hi. destruct (pc w); [|discriminate].
    repeat split; try congruence. exists h, error, rest. split; congruence.
  - destruct (pc w) as [|h]; [discriminate|]. exists h. split; congruence.
  - destruct (pc w) as [|h]; [discriminate|]. exists h. split; congruence.
  - congruence.
Qed.

(** *** The flag and the order of events *)

Lemma no_throw_not_thrown_last (l : list (@Event F)) :
  throws l = 0%nat -> thrown_last l = false.
Proof.
  induction l as [|e l IH]; [reflexivity|].
  destruct e as [[|]| | | | |]; cbn; auto. discriminate.
Qed.

Lemma flag_inv_step (a : Action) (w w' : World F) :
  flag_inv w -> step a w = Some w' -> flag_inv w'.
Proof.
  intros Hinv Hs. apply step_cases in Hs. unfold flag_inv in *.
  fields w. world_cbv_in Hinv. destruct Hinv as [Hact Hph].
  destruct a; world_cbv_in Hs.
  - subst w'. world_cbv. auto.
  - destruct Hs as (_ & _ & _ & _ & ->). world_cbv. auto.
  - destruct Hs as (-> & _ & h & error & rest & -> & ->). world_cbv.
    destruct (failed error); cbn in *; [auto|]. rewrite Hph. auto.
  - destruct Hs as (h & -> & ->). world_cbv. cbn in *. rewrite Hph. auto.
  - destruct Hs as (h & -> & ->). world_cbv. cbn in *. rewrite Hph.
    rewrite Hact. auto.
  - subst w'. world_cbv. auto.
Qed.

(** The events of one whole tick, oldest last: flag raised, handler entered,
    handler returned, flag lowered, expiry set, wait issued. *)
Lemma tick_events (h : F) (w w1 : World F) :
  pc w = Idle -> stopped (ctx w) = false ->
  (exists rest, ready (ctx w) = (h, success) :: rest) ->
  run [Dispatch; Return] w = Some w1 ->
  exists x t, log w1 =
    EvAsyncWait h :: EvExpiresAt x :: EvSetActive false ::
    EvHandlerReturn h t :: EvHandlerCall h (expiry (timer w)) t ::
    EvSetActive true :: log w.
Proof.
  fields w. world_cbv. intros -> -> [rest ->] Hrun.
  cbn in Hrun. inversion Hrun; subst; clear Hrun. cbn. eauto.
Qed.

(** *** After [stop()], and after a failed wait *)

Lemma halted_step (ts : list (Z * Z)) (a : Action) (w w' : World F) :
  halted ts w -> step a w = Some w' -> halted ts w'.
Proof.
  intros Hinv Hs. apply step_cases in Hs. unfold halted in *.
  fields w. world_cbv_in Hinv. destruct Hinv as [Hst Ht].
  destruct a; world_cbv_in Hs.
  - subst w'. world_cbv. auto.
  - destruct Hs as (_ & Hs & _). congruence.
  - destruct Hs as (_ & Hs & _). congruence.
  - destruct Hs as (h & -> & ->). world_cbv. cbn. auto.
  - destruct Hs as (h & -> & ->). world_cbv. cbn. auto.
  - subst w'. world_cbv. auto.
Qed.

Lemma frozen_step (w0 : World F) (a : Action) (w w' : World F) :
  frozen w0 w -> step a w = Some w' -> frozen w0 w'.
Proof.
  intros Hinv Hs. apply step_cases in Hs. unfold frozen, drained in *.
  fields w. world_cbv_in Hinv.
  destruct Hinv as [(Hpc & Hw & Hr) (Hl & Ha & Ht)].
  destruct a; world_cbv_in Hs.
  - subst w'. world_cbv. auto.
  - destruct Hs as (_ & _ & _ & Hs & _). congruence.
  - destruct Hs as (_ & _ & h & error & rest & Hs & _). congruence.
  - destruct Hs as (h & Hs & _). congruence.
  - destruct Hs as (h & Hs & _). congruence.
  - subst w'. world_cbv. auto.
Qed.

(** *** One self-rescheduling chain *)

Lemma interval_ge_gap :
  Chrono.to_ns minimum_gap <= Chrono.to_ns event_loop_interval.
Proof. vm_compute. discriminate. Qed.

Lemma chain_inv_start (flag : bool) (e0 t0 : Z) (h : F) :
  chain_inv (async_handle_events h (boot (fresh F flag e0) t0)).
Proof.
  unfold chain_inv. world_cbv. cbn.
  split; [exact I|]. right. split; [exact I|]. left; eauto.
Qed.

Lemma chain_inv_step (a : Action) (w w' : World F) :
  chain_inv w -> step a w = Some w' -> chain_inv w'.
Proof.
  intros Hinv Hs. apply step_cases in Hs. unfold chain_inv in *.
  fields w. world_cbv_in Hinv. destruct Hinv as [Hws Hpc].
  destruct a; world_cbv_in Hs.
  - (* Elapse *)
    subst w'. world_cbv. split; [assumption|]. destruct at_pc.
    + destruct Hpc as [Hd|[Hc [Hp|(h & Hw & Hr & Hle)]]]; [auto| |];
        right; split; auto.
      right; exists h; repeat split; auto; lia.
    + destruct Hpc as (Hw & Hr & t & older & Ht & Hle).
      repeat split; auto. exists t, older; split; auto; lia.
  - (* Expire *)
    destruct Hs as (-> & _ & Hexp & Hne & ->). world_cbv.
    split; [assumption|].
    destruct Hpc as [[-> _]|[Hc [(h & -> & ->)|(h & -> & _)]]];
      [congruence| |congruence].
    right. split; [assumption|]. right; exists h. cbn. auto.
  - (* Dispatch *)
    destruct Hs as (-> & _ & h & error & rest & Hr & ->).
    destruct Hpc as [[_ Hr0]|[Hc [(h0 & _ & Hr0)|(h0 & -> & Hr0 & Hle)]]];
      [congruence|congruence|].
    rewrite Hr0 in Hr. inversion Hr; subst. world_cbv. cbn.
    repeat split; auto. eexists _, _; split; [reflexivity|lia].
  - (* Return *)
    destruct Hs as (h & -> & ->).
    destruct Hpc as (-> & -> & t & older & Ht & Hle). world_cbv. cbn.
    split; [assumption|]. right. split; [|left; eauto].
    rewrite Ht. cbn. unfold Chrono.to_ns, minimum_gap, Chrono.milliseconds. lia.
  - (* Throw *)
    destruct Hs as (h & -> & ->).
    destruct Hpc as (-> & -> & _). world_cbv. cbn. auto.
  - (* Stop *)
    subst w'. world_cbv. split; assumption.
Qed.

Lemma well_spaced_fired (ts : list (Z * Z)) :
  well_spaced ts -> spaced (Chrono.to_ns minimum_gap) (map snd ts).
Proof.
  induction ts as [|[e t] ts IH]; cbn; [auto|].
  intros (Het & Hc & Hws). split; [|auto].
  destruct ts as [|[e0 t0] ts]; cbn in *; [exact I|]. lia.
Qed.

Lemma well_spaced_scheduled (ts : list (Z * Z)) :
  well_spaced ts -> spaced (Chrono.to_ns event_loop_interval) (map fst ts).
Proof.
  induction ts as [|[e t] ts IH]; cbn; [auto|].
  intros (Het & Hc & Hws). split; [|auto].
  destruct ts as [|[e0 t0] ts]; cbn in *; [exact I|]. lia.
Qed.

Lemma spaced_weaken (g g' : Z) (ts : list Z) :
  g' <= g -> spaced g ts -> spaced g' ts.
Proof.
  intros Hg; induction ts as [|t ts IH]; cbn; [auto|].
  intros [H1 H2]; split; [|auto]. destruct ts; [exact I|lia].
Qed.

Lemma well_spaced_punctual (ts : list (Z * Z)) :
  well_spaced ts -> Forall punctual ts ->
  spaced (Chrono.to_ns event_loop_interval) (map snd ts).
Proof.
  induction ts as [|[e t] ts IH]; cbn; [auto|].
  intros (Het & Hc & Hws) Hp. inversion Hp as [|x l Hp1 Hp2]; subst.
  split; [|auto].
  destruct ts as [|[e0 t0] ts]; cbn in *; [exact I|].
  inversion Hp2 as [|y l' Hq _]; subst. unfold punctual in Hq; cbn in Hq. lia.
Qed.

Lemma well_spaced_not_early (ts : list (Z * Z)) :
  well_spaced ts -> Forall (fun tk => fst tk <= snd tk) ts.
Proof.
  induction ts as [|[e t] ts IH]; cbn; [constructor|].
  intros (Het & _ & Hws). constructor; auto.
Qed.

(** *** An idle reactor with instantaneous handlers *)

Lemma start_poised (flag : bool) (e0 t0 : Z) (h : F) :
  poised (first_wait e0 t0) (async_handle_events h (boot (fresh F flag e0) t0)).
Proof.
  unfold poised. world_cbv. repeat split; eauto.
  unfold first_wait, Chrono.to_ns, minimum_gap, Chrono.milliseconds.
  rewrite Z2N.id; lia.
Qed.

Lemma prompt_tick_poised (d : N) (w : World F) :
  poised d w ->
  exists w',
    run (prompt_tick d) w = Some w' /\ poised (ms 33) w' /\
    ticks (log w') = (expiry (timer w), expiry (timer w)) :: ticks (log w).
Proof.
  unfold poised. fields w. world_cbv. intros (-> & -> & -> & [h ->] & ->).
  cbn [prompt_tick run step]. world_cbv. rewrite Z.leb_refl.
  cbn [negb andb app map failed]. eexists; split; [reflexivity|].
  cbn. repeat split; eauto.
  unfold Chrono.to_ns, minimum_gap, Chrono.milliseconds.
  vm_compute (Z.of_N (ms 33)). change event_loop_interval with 33. lia.
Qed.

Lemma prompt_ticks_poised (k : nat) (w : World F) :
  poised (ms 33) w ->
  exists w',
    run (concat (repeat (prompt_tick (ms 33)) k)) w = Some w' /\
    poised (ms 33) w' /\
    length (ticks (log w')) = (k + length (ticks (log w)))%nat /\
    (Forall punctual (ticks (log w)) -> Forall punctual (ticks (log w'))).
Proof.
  revert w; induction k as [|k IH]; intros w Hp.
  - exists w. cbn. auto.
  - destruct (prompt_tick_poised _ _ Hp) as (w1 & Hrun1 & Hp1 & Ht1).
    destruct (IH w1 Hp1) as (w' & Hrun & Hp' & Hlen & Hpu).
    exists w'. cbn [repeat concat]. rewrite run_app, Hrun1.
    split; [exact Hrun|]. split; [exact Hp'|]. split.
    + rewrite Hlen, Ht1. cbn [length]. lia.
    + intros Hall. apply Hpu. rewrite Ht1. constructor; [reflexivity|exact Hall].
Qed.

Lemma prompt_ticks_run (flag : bool) (e0 t0 : Z) (h : F) (n : nat) :
  exists w,
    run (prompt_ticks e0 t0 n)
        (async_handle_events h (boot (fresh F flag e0) t0)) = Some w /\
    length (ticks (log w)) = n /\
    Forall punctual (ticks (log w)).
Proof.
  destruct n as [|k]; cbn [prompt_ticks].
  - eexists; split; [reflexivity|]. world_cbv. cbn. auto.
  - destruct (prompt_tick_poised _ _ (start_poised flag e0 t0 h))
      as (w1 & Hrun1 & Hp1 & Ht1).
    destruct (prompt_ticks_poised k w1 Hp1) as (w & Hrun & _ & Hlen & Hpu).
    exists w. rewrite run_app, Hrun1. split; [exact Hrun|]. split.
    + rewrite Hlen, Ht1. cbn [length]. world_cbv. cbn. lia.
    + apply Hpu. rewrite Ht1. constructor; [reflexivity|].
      world_cbv. cbn. constructor.
Qed.

(** *** Main results on [async_handle_events] *)

(** C1.  Start from any context whose flag is down, the reactor thread idle.
    Then in every state any run reaches, [event_loop_active] is up exactly
    when the reactor thread is inside a handler or a handler has thrown and
    the flag was not lowered since; as long as no handler has thrown it is up
    exactly inside a handler.  The log keeps the order of [advance]: the flag
    is raised right before a handler is entered and lowered right after it
    returned, the next wait is issued only after the flag was lowered, and no
    handler is entered while another one runs.  A handler that is running
    can return, and the lambda then lowers the flag and only then sets the
    timer and issues the next wait; it can throw, and then the flag stays up
    and the timer is left alone. *)
Theorem event_loop_active_spans_handler
    (c : PluginContext F) (t0 : Z) (acts : list Action) (w : World F) :
  event_loop_active c = false ->
  run acts (boot c t0) = Some w ->
  (active w = true <->
     (exists h, pc w = InHandler h) \/ thrown_last (log w) = true) /\
  (throws (log w) = 0%nat ->
     (active w = true <-> exists h, pc w = InHandler h)) /\
  phase_of (log w) = Some (phase_at (pc w)) /\
  (forall h, pc w = InHandler h ->
     (exists w1, step Return w = Some w1 /\
        pc w1 = Idle /\ active w1 = false /\
        log w1 = EvAsyncWait h :: EvExpiresAt (next_expiry w) ::
                 EvSetActive false :: EvHandlerReturn h (now w) :: log w) /\
     (exists w2, step Throw w = Some w2 /\
        pc w2 = Idle /\ active w2 = true /\ timer w2 = timer w /\
        log w2 = EvHandlerThrow h (now w) :: log w)).
Proof.
  intros Hflag Hrun.
  assert (Hinv : flag_inv w).
  { eapply (run_invariant flag_inv flag_inv_step); [|exact Hrun].
    unfold flag_inv. world_cbv. auto. }
  destruct Hinv as [Hact Hph].
  assert (Hiff : active w = true <->
            (exists h, pc w = InHandler h) \/ thrown_last (log w) = true).
  { rewrite Hact. unfold is_idle. destruct (pc w) as [|h]; cbn.
    - split; [auto|]. intros [[h Hh]|Ht]; [discriminate|exact Ht].
    - split; eauto. }
  split; [exact Hiff|]. split; [|split; [exact Hph|]].
  - intros Hnone. rewrite Hiff, (no_throw_not_thrown_last _ Hnone).
    split; [intros [H|H]; [exact H|discriminate]|auto].
  - intros h Hpc. fields w. world_cbv_in Hpc. subst at_pc.
    world_cbv_in Hact. cbn in Hact. subst flag. split.
    + eexists; split; [reflexivity|]. world_cbv. auto.
    + eexists; split; [reflexivity|]. world_cbv. auto.
Qed.

(** C2.  Every call of [async_handle_events] sets the timer to the later of
    its previous expiry plus [event_loop_interval] and the current time plus
    five milliseconds, and leaves the lambda for [handler] as the timer's
    only pending wait. *)
Theorem async_handle_events_next_expiry (handler : F) (w : World F) :
  expiry (timer (async_handle_events handler w)) =
    Z.max (expiry (timer w) + Chrono.to_ns event_loop_interval)
          (now w + Chrono.to_ns (Chrono.milliseconds 5)) /\
  waiting (timer (async_handle_events handler w)) = [handler].
Proof. fields w. world_cbv. split; reflexivity. Qed.

(** C3.  In every run of a chain started by one call of
    [async_handle_events], however long the clock runs on while a handler
    executes, consecutive ticks are scheduled at least five milliseconds
    apart, and their handlers are entered at least five milliseconds apart. *)
Theorem ticks_keep_minimum_gap
    (flag : bool) (e0 t0 : Z) (h : F) (acts : list Action) (w : World F) :
  run acts (async_handle_events h (boot (fresh F flag e0) t0)) = Some w ->
  spaced (Chrono.to_ns (Chrono.milliseconds 5)) (map fst (ticks (log w))) /\
  spaced (Chrono.to_ns (Chrono.milliseconds 5)) (map snd (ticks (log w))).
Proof.
  intros Hrun.
  assert (Hinv : chain_inv w).
  { eapply (run_invariant chain_inv chain_inv_step); [|exact Hrun].
    apply chain_inv_start. }
  destruct Hinv as [Hws _]. split.
  - eapply spaced_weaken; [apply interval_ge_gap|].
    apply well_spaced_scheduled, Hws.
  - apply well_spaced_fired, Hws.
Qed.

(** C8.  Once [stop()] was called no further tick fires: whatever happens
    next, the log holds the ticks it held.  The call does not take the
    reactor thread out of a handler it is in: that handler can still return,
    and the lambda then runs to its end. *)
Theorem stop_cancels_ticks_not_in_flight
    (w : World F) (acts : list Action) (w' : World F) :
  run acts (stop w) = Some w' ->
  ticks (log w') = ticks (log w) /\
  pc (stop w) = pc w /\
  (forall h, pc w = InHandler h ->
     exists w1, step Return (stop w) = Some w1 /\
       pc w1 = Idle /\ active w1 = false /\
       log w1 = EvAsyncWait h :: EvExpiresAt (next_expiry w) ::
                EvSetActive false :: EvHandlerReturn h (now w) :: log w).
Proof.
  intros Hrun. split; [|split].
  - assert (Hh : halted (ticks (log w)) w').
    { eapply (run_invariant (halted (ticks (log w))) (halted_step _));
        [|exact Hrun].
      unfold halted. fields w. world_cbv. auto. }
    apply Hh.
  - reflexivity.
  - intros h Hpc. fields w. world_cbv_in Hpc. subst at_pc.
    eexists; split; [reflexivity|]. world_cbv. auto.
Qed.

(** C9.  [event_loop_interval] is 1000 ms / 30, that is 33 ms.  In every run
    of a chain, whatever the handlers take and so also when they take no
    time, consecutive ticks are scheduled at least 33 ms apart and no handler
    is entered before its scheduled time; when each handler is entered at its
    scheduled time, the handlers are entered at least 33 ms apart.  On an
    otherwise idle reactor with instantaneous handlers any number of ticks
    occurs that way. *)
Theorem ticks_an_interval_apart (flag : bool) (e0 t0 : Z) (h : F) :
  event_loop_interval = Z.quot 1000 30 /\
  event_loop_interval = Chrono.milliseconds 33 /\
  (forall acts w,
     run acts (async_handle_events h (boot (fresh F flag e0) t0)) = Some w ->
     spaced (Chrono.to_ns (Chrono.milliseconds 33)) (map fst (ticks (log w))) /\
     Forall (fun tk => fst tk <= snd tk) (ticks (log w)) /\
     (Forall punctual (ticks (log w)) ->
      spaced (Chrono.to_ns (Chrono.milliseconds 33)) (map snd (ticks (log w))))) /\
  (forall n, exists w,
     run (prompt_ticks e0 t0 n)
         (async_handle_events h (boot (fresh F flag e0) t0)) = Some w /\
     length (ticks (log w)) = n /\
     spaced (Chrono.to_ns (Chrono.milliseconds 33)) (map snd (ticks (log w)))).
Proof.
  assert (Hws : forall acts w,
    run acts (async_handle_events h (boot (fresh F flag e0) t0)) = Some w ->
    well_spaced (ticks (log w))).
  { intros acts w Hrun.
    apply (run_invariant chain_inv chain_inv_step acts _ w
             (chain_inv_start flag e0 t0 h) Hrun). }
  split; [reflexivity|]. split; [reflexivity|]. split.
  - intros acts w Hrun. specialize (Hws acts w Hrun). split; [|split].
    + apply well_spaced_scheduled, Hws.
    + apply well_spaced_not_early, Hws.
    + intros Hp. apply well_spaced_punctual; assumption.
  - intros n. destruct (prompt_ticks_run flag e0 t0 h n) as (w & Hrun & Hlen & Hp).
    exists w. split; [exact Hrun|]. split; [exact Hlen|].
    apply well_spaced_punctual; [eapply Hws; exact Hrun|exact Hp].
Qed.

(** C10.  When the wait completes with an error the lambda returns at once:
    the world it was invoked in is left as it was, so the handler is not
    called, [event_loop_active] is not written and nothing is rescheduled.
    If that wait was the only one outstanding, nothing happens ever after:
    in every continuation the log, the flag and the timer stay as they were
    and nothing is pending. *)
Theorem failed_wait_ends_chain (handler : F) (error : error_code) :
  failed error = true ->
  (forall w, on_wait_enter handler error w = w) /\
  (forall w acts w',
     pc w = Idle -> stopped (ctx w) = false ->
     waiting (timer w) = [] -> ready (ctx w) = [(handler, error)] ->
     run (Dispatch :: acts) w = Some w' ->
     log w' = log w /\ active w' = active w /\ timer w' = timer w /\
     drained w').
Proof.
  intros Hf. split.
  - intros w. apply on_wait_enter_failed, Hf.
  - intros w acts w' Hpc Hst Hw Hr Hrun.
    cbn [run step] in Hrun. unfold is_idle in Hrun.
    rewrite Hpc, Hst, Hr in Hrun. cbn [andb negb] in Hrun.
    rewrite on_wait_enter_failed in Hrun by exact Hf.
    assert (Hfz : frozen w w').
    { eapply (run_invariant (frozen w) (frozen_step w)); [|exact Hrun].
      unfold frozen, drained. fields w. world_cbv_in Hr. world_cbv_in Hw.
      world_cbv_in Hpc. subst. world_cbv. auto. }
    destruct Hfz as (Hd & Hl & Ha & Ht). auto.
Qed.

(** *** Which handler is called *)


(** *** Rest between handlers *)

Lemma rested_inv_step (a : Action) (w w' : World F) :
  rested_inv w -> step a w = Some w' -> rested_inv w'.
Proof.
  intros (Hchain & Hrest & Hlast) Hs.
  split; [eapply chain_inv_step; eassumption|].
  apply step_cases in Hs. unfold chain_inv in Hchain.
  fields w. world_cbv_in Hchain. world_cbv_in Hrest. world_cbv_in Hlast.
  destruct Hchain as [_ Hpc]. destruct a; world_cbv_in Hs.
  - subst w'. world_cbv. auto.
  - destruct Hs as (-> & _ & _ & _ & ->). world_cbv. auto.
  - destruct Hs as (-> & _ & h & error & rest & Hr & ->).
    destruct Hpc as [[_ Hr0]|[_ [(h0 & _ & Hr0)|(h0 & _ & Hr0 & Hle)]]];
      [congruence|congruence|].
    rewrite Hr0 in Hr. inversion Hr; subst. world_cbv. cbn.
    split; [|assumption]. split; [|assumption].
    destruct (last_return lg); [lia|exact I].
  - destruct Hs as (h & -> & ->). world_cbv. cbn.
    split; [assumption|].
    unfold Chrono.to_ns, minimum_gap, Chrono.milliseconds. lia.
  - destruct Hs as (h & -> & ->). world_cbv. cbn. auto.
  - subst w'. world_cbv. auto.
Qed.

(** *** A steady cadence *)

Lemma steady_inv_step (a : Action) (w w' : World F) :
  steady_inv w -> step a w = Some w' -> steady_inv w'.
Proof.
  intros (Hchain & Hsteady) Hs.
  split; [eapply chain_inv_step; eassumption|].
  apply step_cases in Hs. unfold chain_inv in Hchain.
  fields w. world_cbv_in Hchain. world_cbv_in Hsteady.
  destruct Hchain as [Hws Hpc]. destruct a; world_cbv_in Hs.
  - subst w'. world_cbv. auto.
  - destruct Hs as (-> & _ & _ & Hne & ->). world_cbv.
    intros Ht. destruct (Hsteady Ht) as [Hev Hexp]. split; [assumption|].
    destruct Hpc as [[-> _]|[_ [(h & -> & ->)|(h & -> & _)]]];
      [congruence| |congruence].
    destruct (ticks lg) as [|[e t] ts]; [exact I|].
    destruct Hexp as [[Hw _]|Hexp]; [discriminate|]. right. exact Hexp.
  - destruct Hs as (-> & _ & h & error & rest & Hr & ->).
    destruct Hpc as [[_ Hr0]|[_ [(h0 & _ & Hr0)|(h0 & _ & Hr0 & Hle)]]];
      [congruence|congruence|].
    rewrite Hr0 in Hr. inversion Hr; subst. world_cbv. cbn.
    intros Ht. destruct (Hsteady Ht) as [Hev Hexp].
    split; [|exact I]. split; [|assumption].
    destruct (ticks lg) as [|[e t] ts]; [exact I|]. cbn.
    destruct Hexp as [[_ Hr1]|Hexp]; [discriminate|exact Hexp].
  - destruct Hs as (h & -> & ->).
    destruct Hpc as (_ & _ & t & older & Ht & Hle). world_cbv. cbn.
    rewrite Ht in *. cbn in Hws. destruct Hws as (Het & _ & _).
    intros [Hslack Htimely]. destruct (Hsteady Htimely) as [Hev _].
    split; [assumption|]. right.
    unfold slack, Chrono.to_ns, minimum_gap, Chrono.milliseconds in *.
    change event_loop_interval with 33 in *. lia.
  - destruct Hs as (h & -> & ->).
    destruct Hpc as (-> & -> & _). world_cbv. cbn.
    intros Ht. destruct (Hsteady Ht) as [Hev _]. split; [assumption|].
    destruct (ticks lg) as [|[e t] ts]; auto.
  - subst w'. world_cbv. auto.
Qed.

(** *** Counting *)

Lemma stores_inv_step (a : Action) (w w' : World F) :
  stores_inv w -> step a w = Some w' -> stores_inv w'.
Proof.
  intros Hinv Hs. apply step_cases in Hs. unfold stores_inv in *.
  fields w. world_cbv_in Hinv. destruct Hinv as (Ht & Hf & Hn).
  destruct a; world_cbv_in Hs.
  - subst w'. world_cbv. auto.
  - destruct Hs as (-> & _ & _ & _ & ->). world_cbv. auto.
  - destruct Hs as (-> & _ & h & error & rest & _ & ->). world_cbv.
    destruct (failed error); cbn in *; [auto|].
    repeat split; lia.
  - destruct Hs as (h & -> & ->). world_cbv. cbn in *. repeat split; lia.
  - destruct Hs as (h & -> & ->). world_cbv. cbn in *. repeat split; lia.
  - subst w'. world_cbv. auto.
Qed.

(** Every [Return] adds a return to the log and every [Throw] a throw;
    nothing else does. *)
Lemma step_counts (a : Action) (w w' : World F) :
  step a w = Some w' ->
  returns (log w') = (returns (log w) + if is_return a then 1 else 0)%nat /\
  throws (log w') = (throws (log w) + if is_throw a then 1 else 0)%nat.
Proof.
  intros Hs. apply step_cases in Hs. fields w.
  destruct a; world_cbv_in Hs; cbn [is_return is_throw].
  - subst w'. world_cbv. lia.
  - destruct Hs as (_ & _ & _ & _ & ->). world_cbv. lia.
  - destruct Hs as (_ & _ & h & error & rest & _ & ->). world_cbv.
    destruct (failed error); cbn; lia.
  - destruct Hs as (h & _ & ->). world_cbv. cbn. lia.
  - destruct Hs as (h & _ & ->). world_cbv. cbn. lia.
  - subst w'. world_cbv. lia.
Qed.

Lemma run_counts (acts : list Action) (w w' : World F) :
  run acts w = Some w' ->
  returns (log w') = (returns (log w) + length (List.filter is_return acts))%nat /\
  throws (log w') = (throws (log w) + length (List.filter is_throw acts))%nat.
Proof.
  revert w; induction acts as [|a acts IH]; intros w Hrun; cbn [run] in Hrun.
  - inversion Hrun; subst. cbn. lia.
  - destruct (step a w) as [w1|] eqn:Hs; [|discriminate].
    destruct (step_counts _ _ _ Hs) as [Hr Ht].
    destruct (IH w1 Hrun) as [Hr' Ht']. rewrite Hr', Ht', Hr, Ht.
    cbn [List.filter]. destruct a; cbn; lia.
Qed.

Lemma forward_inv_step (e0 t0 : Z) (a : Action) (w w' : World F) :
  forward_inv e0 t0 w -> step a w = Some w' -> forward_inv e0 t0 w'.
Proof.
  intros Hinv Hs. apply step_cases in Hs. unfold forward_inv in *.
  fields w. world_cbv_in Hinv. destruct Hinv as (He & Ht).
  destruct a; world_cbv_in Hs.
  - subst w'. world_cbv. split; [assumption|lia].
  - destruct Hs as (-> & _ & _ & _ & ->). world_cbv. auto.
  - destruct Hs as (-> & _ & h & error & rest & _ & ->). world_cbv.
    destruct (failed error); cbn; auto.
  - destruct Hs as (h & -> & ->). world_cbv. cbn [settings].
    split; [|assumption]. lia.
  - destruct Hs as (h & -> & ->). world_cbv. cbn [settings]. auto.
  - subst w'. world_cbv. auto.
Qed.

(** *** One thing outstanding *)

Lemma single_inv_start (flag : bool) (e0 t0 : Z) (h : F) :
  single_inv h (async_handle_events h (boot (fresh F flag e0) t0)).
Proof.
  unfold single_inv, outstanding. world_cbv. cbn. repeat split; auto.
Qed.

Lemma single_inv_step (h : F) (a : Action) (w w' : World F) :
  single_inv h w -> step a w = Some w' -> single_inv h w'.
Proof.
  intros Hinv Hs. apply step_cases in Hs. unfold single_inv, outstanding in *.
  fields w. world_cbv_in Hinv. destruct Hinv as (Hout & Hw & Hr & Hpc).
  destruct a; world_cbv_in Hs.
  - subst w'. world_cbv. auto.
  - destruct Hs as (-> & _ & _ & _ & ->). world_cbv.
    split; [|split; [constructor|split; [|exact I]]].
    + rewrite length_app, length_map. cbn [length] in *.
      destruct (throws lg); lia.
    + apply Forall_app; split; [assumption|]. apply Forall_map.
      eapply Forall_impl; [exact Hw|]. intros h' <-. reflexivity.
  - destruct Hs as (-> & _ & h0 & error & rest & -> & ->). world_cbv.
    inversion Hr as [|op ops Hop Hrest]; subst. inversion Hop; subst.
    cbn [failed length tl] in *. world_cbv. cbn [throws length].
    repeat split; auto.
    destruct (throws lg); [|lia]. destruct wts, rest; cbn in *; lia.
  - destruct Hs as (h0 & -> & ->). subst h0. world_cbv. cbn [throws].
    destruct (throws lg); cbn [length] in Hout; [|lia].
    destruct wts; [|cbn in Hout; lia]. destruct rdy; [|cbn in Hout; lia].
    cbn. repeat split; auto.
  - destruct Hs as (h0 & -> & ->). subst h0. world_cbv. cbn [throws].
    destruct (throws lg); cbn [length] in Hout; [|lia].
    destruct wts; [|cbn in Hout; lia]. destruct rdy; [|cbn in Hout; lia].
    cbn. repeat split; auto.
  - subst w'. world_cbv. auto.
Qed.

(** *** Going on *)

Lemma run_unstopped (acts : list Action) (w w' : World F) :
  forallb (fun a => negb (is_stop a || is_throw a)) acts = true ->
  stopped (ctx w) = false ->
  run acts w = Some w' -> stopped (ctx w') = false.
Proof.
  revert w; induction acts as [|a acts IH]; intros w Hacts Hst Hrun;
    cbn [run forallb] in *.
  - congruence.
  - apply andb_prop in Hacts as [Ha Hacts].
    destruct (step a w) as [w1|] eqn:Hs; [|discriminate].
    apply (IH w1 Hacts); [|exact Hrun]. clear IH Hrun Hacts.
    apply step_cases in Hs. fields w. world_cbv_in Hst. subst stp.
    destruct a; world_cbv_in Hs; try discriminate.
    + subst w1. reflexivity.
    + destruct Hs as (_ & _ & _ & _ & ->). reflexivity.
    + destruct Hs as (_ & _ & h & error & rest & _ & ->). world_cbv.
      destruct (failed error); reflexivity.
    + destruct Hs as (h & _ & ->). reflexivity.
Qed.

Lemma no_throw_count (acts : list Action) :
  forallb (fun a => negb (is_stop a || is_throw a)) acts = true ->
  length (List.filter is_throw acts) = 0%nat.
Proof.
  induction acts as [|a acts IH]; cbn [forallb List.filter]; [reflexivity|].
  intros Hacts. apply andb_prop in Hacts as [Ha Hacts].
  destruct a; cbn in *; auto. discriminate.
Qed.

Lemma next_tick_reachable (h : F) (w : World F) :
  single_inv h w -> throws (log w) = 0%nat -> stopped (ctx w) = false ->
  exists acts w',
    run acts w = Some w' /\
    length (ticks (log w')) = S (length (ticks (log w))).
Proof.
  unfold single_inv, outstanding. fields w. world_cbv.
  intros (Hout & Hw & Hr & Hpc) Hth ->. rewrite Hth in Hout.
  destruct at_pc as [|h0].
  - destruct wts as [|x [|y wts]], rdy as [|op [|op' rdy]];
      cbn [length] in Hout; try lia.
    + inversion Hr as [|? ? Hop _]; subst.
      exists [Dispatch]. cbn. eexists; split; reflexivity.
    + exists [Elapse (Z.to_N (exp - clk)); Expire; Dispatch].
      cbn [run step]. world_cbv.
      assert (Hle : exp <= clk + Z.of_N (Z.to_N (exp - clk))) by lia.
      apply Z.leb_le in Hle. rewrite Hle.
      cbn. eexists; split; reflexivity.
  - destruct wts; [|cbn in Hout; lia]. destruct rdy; [|cbn in Hout; lia].
    set (x := Z.max (exp + Chrono.to_ns event_loop_interval)
                    (clk + Chrono.to_ns minimum_gap)).
    exists [Return; Elapse (Z.to_N (x - clk)); Expire; Dispatch].
    cbn [run step]. world_cbv. fold x.
    assert (Hle : x <= clk + Z.of_N (Z.to_N (x - clk))) by lia.
    apply Z.leb_le in Hle. rewrite Hle.
    cbn. eexists; split; reflexivity.
Qed.

(** *** The rule of the schedule *)

Lemma rule_inv_step (a : Action) (w w' : World F) :
  rule_inv w -> step a w = Some w' -> rule_inv w'.
Proof.
  intros (Hchain & Hrule & Hnext) Hs.
  split; [eapply chain_inv_step; eassumption|].
  apply step_cases in Hs. unfold chain_inv in Hchain.
  fields w. world_cbv_in Hchain. world_cbv_in Hrule. world_cbv_in Hnext.
  destruct Hchain as [_ Hpc]. destruct a; world_cbv_in Hs.
  - subst w'. world_cbv. auto.
  - destruct Hs as (-> & _ & _ & Hne & ->). world_cbv.
    split; [assumption|].
    destruct Hpc as [[-> _]|[_ [(h & -> & ->)|(h & -> & _)]]];
      [congruence| |congruence].
    destruct (ticks lg) as [|[e0 t0] ts]; [exact I|].
    destruct (last_return lg); [|exact I].
    destruct Hnext as [[Hw _]|Hnext]; [discriminate|]. right. exact Hnext.
  - destruct Hs as (-> & _ & h & error & rest & Hr & ->).
    destruct Hpc as [[_ Hr0]|[_ [(h0 & _ & Hr0)|(h0 & _ & Hr0 & Hle)]]];
      [congruence|congruence|].
    rewrite Hr0 in Hr. inversion Hr; subst. world_cbv. cbn.
    split; [|exact I]. split; [|assumption].
    destruct (ticks lg) as [|[e0 t0] ts]; [exact I|].
    destruct (last_return lg); [|exact I].
    destruct Hnext as [[_ Hr1]|Hnext]; [discriminate|exact Hnext].
  - destruct Hs as (h & -> & ->).
    destruct Hpc as (_ & _ & t & older & Ht & _). world_cbv. cbn.
    split; [assumption|]. rewrite Ht. right. reflexivity.
  - destruct Hs as (h & -> & ->).
    destruct Hpc as (-> & -> & _). world_cbv. cbn.
    split; [assumption|].
    destruct (ticks lg) as [|[e0 t0] ts]; [exact I|].
    destruct (last_return lg); auto.
  - subst w'. world_cbv. auto.
Qed.

(** *** Further results on [async_handle_events] *)


(** X2.  In every run of a chain each handler is entered at least five
    milliseconds after the handler before it returned: the time the reactor
    has for other work between two ticks. *)
Theorem handlers_rest_between_ticks
    (flag : bool) (e0 t0 : Z) (h : F) (acts : list Action) (w : World F) :
  run acts (async_handle_events h (boot (fresh F flag e0) t0)) = Some w ->
  rested (Chrono.to_ns (Chrono.milliseconds 5)) (log w).
Proof.
  intros Hrun.
  assert (Hinv : rested_inv w).
  { eapply (run_invariant rested_inv rested_inv_step); [|exact Hrun].
    split; [apply chain_inv_start|]. world_cbv. cbn. auto. }
  apply Hinv.
Qed.

(** X3.  As long as every handler returns within 28 ms of the time its tick
    was scheduled for, the ticks of a chain are scheduled exactly 33 ms
    apart: late dispatch and handler time inside that slack do not shift the
    cadence. *)
Theorem timely_handlers_keep_cadence
    (flag : bool) (e0 t0 : Z) (h : F) (acts : list Action) (w : World F) :
  run acts (async_handle_events h (boot (fresh F flag e0) t0)) = Some w ->
  timely (Chrono.to_ns (Chrono.milliseconds 28)) (log w) ->
  evenly_spaced (Chrono.to_ns (Chrono.milliseconds 33)) (map fst (ticks (log w))).
Proof.
  intros Hrun Htimely.
  assert (Hinv : steady_inv w).
  { eapply (run_invariant steady_inv steady_inv_step); [|exact Hrun].
    split; [apply chain_inv_start|]. world_cbv. cbn. auto. }
  destruct Hinv as [_ Hsteady]. apply (Hsteady Htimely).
Qed.

(** X4.  Started idle with an empty log, [event_loop_active] is stored to
    only around handlers: [true] once per handler entered, [false] once per
    handler that returned.  A handler that throws is followed by no store,
    and a wait that failed stores nothing. *)
Theorem flag_stored_twice_per_tick
    (c : PluginContext F) (t0 : Z) (acts : list Action) (w : World F) :
  run acts (boot c t0) = Some w ->
  stores true (log w) = length (ticks (log w)) /\
  stores false (log w) = length (List.filter is_return acts) /\
  length (ticks (log w)) =
    (length (List.filter is_return acts) + length (List.filter is_throw acts)
     + if is_idle w then 0 else 1)%nat.
Proof.
  intros Hrun.
  assert (Hinv : stores_inv w).
  { apply (run_invariant stores_inv stores_inv_step acts (boot c t0) w);
      [|exact Hrun].
    unfold stores_inv. world_cbv. cbn. auto. }
  destruct (run_counts _ _ _ Hrun) as [Hr Ht]. cbn in Hr, Ht.
  destruct Hinv as (H1 & H2 & H3). rewrite <- Hr, <- Ht. auto.
Qed.

(** X5.  The timer only moves forward: after the timer was set [n] times its
    expiry is at least [n] intervals past where it started, and the clock
    never runs backwards. *)
Theorem timer_moves_forward
    (c : PluginContext F) (t0 : Z) (acts : list Action) (w : World F) :
  run acts (boot c t0) = Some w ->
  expiry (events_timer c)
    + Chrono.to_ns event_loop_interval * Z.of_nat (settings (log w))
    <= expiry (timer w) /\
  t0 <= now w.
Proof.
  intros Hrun.
  apply (run_invariant (forward_inv (expiry (events_timer c)) t0)
           (forward_inv_step _ _) acts (boot c t0) w); [|exact Hrun].
  unfold forward_inv. world_cbv. cbn. lia.
Qed.

(** X6.  A chain does not end by itself: from every state a run reaches in
    which [stop()] was not called and no handler threw, one more tick can
    fire. *)
Theorem chain_keeps_going
    (flag : bool) (e0 t0 : Z) (h : F) (acts : list Action) (w : World F) :
  forallb (fun a => negb (is_stop a || is_throw a)) acts = true ->
  run acts (async_handle_events h (boot (fresh F flag e0) t0)) = Some w ->
  exists more w',
    run more w = Some w' /\
    length (ticks (log w')) = S (length (ticks (log w))).
Proof.
  intros Hacts Hrun. apply (next_tick_reachable h).
  - eapply (run_invariant (single_inv h) (single_inv_step h)); [|exact Hrun].
    apply single_inv_start.
  - destruct (run_counts _ _ _ Hrun) as [_ Ht]. rewrite Ht.
    rewrite (no_throw_count _ Hacts). reflexivity.
  - eapply run_unstopped; [exact Hacts| |exact Hrun]. reflexivity.
Qed.

(** X12.  In every run of a chain each tick after the first is scheduled
    for the later of the time the tick before it was scheduled for plus
    33 ms and the time that tick's handler returned plus 5 ms: nothing but
    [async_handle_events] moves the timer, and it reads the expiry the last
    tick was scheduled with. *)
Theorem ticks_scheduled_by_rule
    (flag : bool) (e0 t0 : Z) (h : F) (acts : list Action) (w : World F) :
  run acts (async_handle_events h (boot (fresh F flag e0) t0)) = Some w ->
  by_rule (log w).
Proof.
  intros Hrun.
  assert (Hinv : rule_inv w).
  { eapply (run_invariant rule_inv rule_inv_step); [|exact Hrun].
    split; [apply chain_inv_start|]. world_cbv. cbn. auto. }
  apply Hinv.
Qed.

(** X13.  A chain never forks, and it lapses only when a handler throws:
    as long as no handler has thrown exactly one thing is outstanding, a wait
    pending on the timer, a completion queued for the reactor, or the
    handler running; once a handler has thrown nothing is.  The handler that
    runs is the one the chain was started with, and when it returns the
    lambda leaves exactly one wait pending, for that handler. *)
Theorem one_wait_outstanding
    (flag : bool) (e0 t0 : Z) (h : F) (acts : list Action) (w : World F) :
  run acts (async_handle_events h (boot (fresh F flag e0) t0)) = Some w ->
  (throws (log w) = 0%nat -> outstanding w = 1%nat) /\
  (throws (log w) <> 0%nat -> outstanding w = 0%nat) /\
  (forall h', pc w = InHandler h' ->
     h' = h /\
     exists w1, step Return w = Some w1 /\
       pc w1 = Idle /\ waiting (timer w1) = [h] /\ ready (ctx w1) = [] /\
       outstanding w1 = 1%nat).
Proof.
  intros Hrun.
  assert (Hinv : single_inv h w).
  { eapply (run_invariant (single_inv h) (single_inv_step h)); [|exact Hrun].
    apply single_inv_start. }
  destruct Hinv as (Hout & Hw & Hr & Hpc). split; [|split].
  - intros Hth. rewrite Hth in Hout. exact Hout.
  - intros Hth. destruct (throws (log w)); [congruence|exact Hout].
  - intros h' Hh'. rewrite Hh' in Hpc. split; [exact Hpc|]. subst h'.
    unfold outstanding in *. fields w. world_cbv_in Hh'. subst at_pc.
    world_cbv_in Hout. cbn [length] in Hout.
    assert (wts = [] /\ rdy = []) as [-> ->].
    { destruct (throws lg), wts, rdy; cbn in Hout; auto; lia. }
    eexists; split; [reflexivity|]. world_cbv. cbn. auto.
Qed.

End Facts.

(** *** The results at concrete runs *)

Example ten_prompt_ticks_log :
  option_map (fun w => ticks (log w)) (run ten_prompt_ticks (started 0)) =
  Some (map (fun k => (k * 33000000, k * 33000000)) [10; 9; 8; 7; 6; 5; 4; 3; 2; 1]).
Proof. vm_compute. reflexivity. Qed.

Example slow_ticks_log :
  option_map (fun w => ticks (log w)) (run slow_ticks (started 1000000000)) =
  Some [(1110000000, 1110000000); (1005000000, 1005000000)].
Proof. vm_compute. reflexivity. Qed.

(** A timer that is found expired 20 ms late: the next tick is still
    scheduled a full interval after the previous expiry, 13 ms after the
    late handler was entered. *)
Example late_tick_log :
  option_map (fun w => ticks (log w))
    (run [Elapse (ms 53); Expire; Dispatch; Return;
          Elapse (ms 13); Expire; Dispatch; Return] (started 0)) =
  Some [(66000000, 66000000); (33000000, 53000000)].
Proof. vm_compute. reflexivity. Qed.

(** Calling [async_handle_events] while a wait is pending cancels that wait:
    its lambda is queued with [operation_aborted]. *)
Example second_call_cancels_first :
  ready (ctx (async_handle_events 8%nat (started 0))) = [(7%nat, operation_aborted)] /\
  waiting (timer (async_handle_events 8%nat (started 0))) = [8%nat].
Proof. split; reflexivity. Qed.

(** After [stop()] the timer is not found expired any more. *)
Example no_expiry_after_stop :
  run [Return; Elapse (ms 40); Expire] (stop w_in_handler) = None.
Proof. vm_compute. reflexivity. Qed.

Lemma event_loop_active_spans_handler_witness :
  run in_first_handler (boot armed 0) = Some w_in_handler /\
  active w_in_handler = true /\
  run first_handler_returns (boot armed 0) = Some w_returned /\
  throws (log w_returned) = 0%nat /\
  active w_returned = false /\
  waiting (timer w_returned) = [7%nat] /\
  (active w_returned = true <->
     (exists h, pc w_returned = InHandler h) \/
     thrown_last (log w_returned) = true) /\
  (throws (log w_returned) = 0%nat ->
     (active w_returned = true <-> exists h, pc w_returned = InHandler h)) /\
  phase_of (log w_returned) = Some (phase_at (pc w_returned)).
Proof.
  split; [vm_compute; reflexivity|]. split; [reflexivity|].
  split; [vm_compute; reflexivity|]. split; [reflexivity|].
  split; [reflexivity|]. split; [reflexivity|].
  destruct (event_loop_active_spans_handler armed 0 first_handler_returns
              w_returned) as (H1 & H2 & H3 & _).
  - reflexivity.
  - vm_compute; reflexivity.
  - auto.
Defined.

(** A handler that throws: the flag stays up with no handler running. *)
Lemma thrown_handler_leaves_flag_up :
  event_loop_active armed = false /\
  run first_handler_throws (boot armed 0) = Some w_thrown /\
  active w_thrown = true /\ pc w_thrown = Idle /\
  waiting (timer w_thrown) = [] /\ ready (ctx w_thrown) = [] /\
  ~ (active w_thrown = true <-> exists h, pc w_thrown = InHandler h).
Proof.
  split; [reflexivity|]. split; [vm_compute; reflexivity|].
  split; [reflexivity|]. split; [reflexivity|].
  split; [reflexivity|]. split; [reflexivity|].
  intros [Hup _]. destruct (Hup eq_refl) as [h Hh]. discriminate.
Qed.

(** Instantaneous handlers, each returning at the time it was entered, on a
    reactor that dispatches the first tick 28 ms late: the second handler is
    entered 5 ms after the first. *)
Lemma late_dispatch_breaks_interval :
  run late_instant_ticks (started 0) = Some w_late_instant /\
  ticks (log w_late_instant) = [(66000000, 66000000); (33000000, 61000000)] /\
  returned_at (log w_late_instant) = map snd (ticks (log w_late_instant)) /\
  ~ spaced (Chrono.to_ns (Chrono.milliseconds 33))
           (map snd (ticks (log w_late_instant))).
Proof.
  split; [vm_compute; reflexivity|]. split; [reflexivity|].
  split; [reflexivity|].
  intros H. vm_compute in H. destruct H as [H _]. apply H. reflexivity.
Qed.

(** Called from inside a running handler, [async_handle_events] does not
    take the timer over: when the running handler returns, the lambda sets
    the timer again, which cancels the wait just issued. *)
Example rearming_inside_handler_is_undone :
  option_map (fun w => (called (log w), ready (ctx w)))
    (run [Return] (async_handle_events 8%nat w_in_handler))
    = Some ([7%nat], [(8%nat, operation_aborted)]) /\
  option_map (fun w => called (log w))
    (run [Return; Dispatch; Elapse (ms 64); Expire; Dispatch]
         (async_handle_events 8%nat w_in_handler))
    = Some [7%nat; 7%nat].
Proof. split; vm_compute; reflexivity. Qed.

Lemma ticks_keep_minimum_gap_witness :
  run slow_ticks (started 1000000000) = Some w_slow /\
  length (ticks (log w_slow)) = 2%nat /\
  spaced 5000000 (map fst (ticks (log w_slow))) /\
  spaced 5000000 (map snd (ticks (log w_slow))).
Proof.
  split; [vm_compute; reflexivity|]. split; [reflexivity|].
  apply (ticks_keep_minimum_gap false 0 1000000000 7%nat slow_ticks).
  vm_compute; reflexivity.
Defined.

Lemma stop_cancels_ticks_not_in_flight_witness :
  pc w_in_handler = InHandler 7%nat /\
  run after_stop (stop w_in_handler) = Some w_stopped /\
  ticks (log w_stopped) = ticks (log w_in_handler) /\
  pc (stop w_in_handler) = pc w_in_handler /\
  (forall h, pc w_in_handler = InHandler h ->
     exists w1, step Return (stop w_in_handler) = Some w1 /\
       pc w1 = Idle /\ active w1 = false /\
       log w1 = EvAsyncWait h :: EvExpiresAt (next_expiry w_in_handler) ::
                EvSetActive false :: EvHandlerReturn h (now w_in_handler) ::
                log w_in_handler).
Proof.
  split; [reflexivity|]. split; [vm_compute; reflexivity|].
  apply (stop_cancels_ticks_not_in_flight w_in_handler after_stop).
  vm_compute; reflexivity.
Defined.

Lemma ticks_an_interval_apart_witness :
  run ten_prompt_ticks (started 0) = Some w_ten /\
  length (ticks (log w_ten)) = 10%nat /\
  length (List.filter
            (fun e => match e with EvSetActive false => true | _ => false end)
            (log w_ten)) = 10%nat /\
  spaced 33000000 (map snd (ticks (log w_ten))).
Proof.
  split; [vm_compute; reflexivity|]. split; [vm_compute; reflexivity|].
  split; [vm_compute; reflexivity|].
  destruct (ticks_an_interval_apart false 0 0 7%nat) as (_ & _ & Hruns & _).
  destruct (Hruns ten_prompt_ticks w_ten) as (_ & _ & Hspaced).
  - vm_compute; reflexivity.
  - apply Hspaced. vm_compute. repeat constructor.
Defined.

Lemma failed_wait_ends_chain_witness :
  (forall w : World nat, on_wait_enter 7%nat operation_aborted w = w) /\
  run [Dispatch; Elapse (ms 50); Stop] (boot cancelled 0) = Some w_cancelled /\
  log w_cancelled = [] /\ active w_cancelled = false /\ drained w_cancelled.
Proof.
  destruct (failed_wait_ends_chain 7%nat operation_aborted eq_refl) as [H1 H2].
  split; [exact H1|]. split; [vm_compute; reflexivity|].
  destruct (H2 (boot cancelled 0) [Elapse (ms 50); Stop] w_cancelled)
    as (Hl & Ha & _ & Hd); try reflexivity.
  auto.
Defined.


Lemma handlers_rest_between_ticks_witness :
  run slow_ticks (started 1000000000) = Some w_slow /\
  returns (log w_slow) = 2%nat /\
  rested 5000000 (log w_slow).
Proof.
  split; [vm_compute; reflexivity|]. split; [reflexivity|].
  apply (handlers_rest_between_ticks false 0 1000000000 7%nat slow_ticks).
  vm_compute; reflexivity.
Defined.

Lemma timely_handlers_keep_cadence_witness :
  run late_ticks (started 0) = Some w_late /\
  ticks (log w_late) = [(66000000, 66000000); (33000000, 53000000)] /\
  evenly_spaced 33000000 (map fst (ticks (log w_late))).
Proof.
  split; [vm_compute; reflexivity|]. split; [reflexivity|].
  apply (timely_handlers_keep_cadence false 0 0 7%nat late_ticks).
  - vm_compute; reflexivity.
  - vm_compute. repeat split; discriminate.
Defined.

Lemma flag_stored_twice_per_tick_witness :
  run first_handler_returns (boot armed 0) = Some w_returned /\
  stores true (log w_returned) = 1%nat /\
  stores false (log w_returned) = 1%nat /\
  stores true (log w_returned) = length (ticks (log w_returned)) /\
  stores false (log w_returned)
    = length (List.filter is_return first_handler_returns) /\
  length (ticks (log w_returned)) =
    (length (List.filter is_return first_handler_returns)
     + length (List.filter is_throw first_handler_returns)
     + if is_idle w_returned then 0 else 1)%nat.
Proof.
  split; [vm_compute; reflexivity|]. split; [reflexivity|].
  split; [reflexivity|].
  apply (flag_stored_twice_per_tick armed 0 first_handler_returns).
  vm_compute; reflexivity.
Defined.

Lemma timer_moves_forward_witness :
  run (prompt_tick (ms 33)) (boot armed 0) = Some w_one_tick /\
  settings (log w_one_tick) = 1%nat /\
  expiry (events_timer armed)
    + Chrono.to_ns event_loop_interval * Z.of_nat (settings (log w_one_tick))
    <= expiry (timer w_one_tick) /\
  0 <= now w_one_tick.
Proof.
  split; [vm_compute; reflexivity|]. split; [reflexivity|].
  apply (timer_moves_forward armed 0 (prompt_tick (ms 33))).
  vm_compute; reflexivity.
Defined.

Lemma chain_keeps_going_witness :
  run slow_ticks (started 1000000000) = Some w_slow /\
  exists more w',
    run more w_slow = Some w' /\
    length (ticks (log w')) = S (length (ticks (log w_slow))).
Proof.
  split; [vm_compute; reflexivity|].
  apply (chain_keeps_going false 0 1000000000 7%nat slow_ticks).
  - reflexivity.
  - vm_compute; reflexivity.
Defined.

Lemma ticks_scheduled_by_rule_witness :
  run slow_ticks (started 1000000000) = Some w_slow /\
  ticks (log w_slow) = [(1110000000, 1110000000); (1005000000, 1005000000)] /\
  last_return (log w_slow) = Some 1110000000 /\
  by_rule (log w_slow).
Proof.
  split; [vm_compute; reflexivity|]. split; [reflexivity|].
  split; [reflexivity|].
  apply (ticks_scheduled_by_rule false 0 1000000000 7%nat slow_ticks).
  vm_compute; reflexivity.
Defined.

Lemma one_wait_outstanding_witness :
  run slow_ticks (started 1000000000) = Some w_slow /\
  returns (log w_slow) = 2%nat /\
  (throws (log w_slow) = 0%nat -> outstanding w_slow = 1%nat) /\
  (throws (log w_slow) <> 0%nat -> outstanding w_slow = 0%nat) /\
  (forall h', pc w_slow = InHandler h' ->
     h' = 7%nat /\
     exists w1, step Return w_slow = Some w1 /\
       pc w1 = Idle /\ waiting (timer w1) = [7%nat] /\ ready (ctx w1) = [] /\
       outstanding w1 = 1%nat).
Proof.
  split; [vm_compute; reflexivity|]. split; [reflexivity|].
  apply (one_wait_outstanding false 0 1000000000 7%nat slow_ticks).
  vm_compute; reflexivity.
Defined.

End EventLoop.

(** ** YaUnitHandler2 *)

Module UnitHandler2.

(** [struct YaUnitHandler2::ConstructArgs]. *)
Record ConstructArgs : Type := {
  supported : bool
}.

(** The archive [S] of [serialize(S& s)], as far as [ConstructArgs] uses it.
    [s.value1b(x)] moves one byte between the archive and the object [x],
    which C++ passes by reference: the archive and the object after the call
    are returned, [None] when the archive fails. *)
Class Archive (S : Type) : Type := {
  value1b : S -> bool -> option (S * bool)
}.

(** [template <typename S> void serialize(S& s) { s.value1b(supported); }] *)
Definition serialize {S : Type} `{Archive S} (s : S) (self : ConstructArgs)
    : option (S * ConstructArgs) :=
  match value1b s (supported self) with
  | Some (s', b) => Some (s', {| supported := b |})
  | None => None
  end.

(** The object representation of a [bool]: one byte, 1 or 0. *)
Definition byte_of_bool (b : bool) : byte := if b then x01 else x00.

(** An output archive: the bytes written so far, in order. *)
Record Output : Type := { written : list byte }.

(** An input archive: the bytes not yet read. *)
Record Input : Type := { remaining : list byte }.

(** Writing appends the byte of the object and leaves the object alone. *)
#[export] Instance output_archive : Archive Output := {
  value1b s b := Some ({| written := written s ++ [byte_of_bool b] |}, b)
}.

(** Reading takes the next byte and stores it in the object; it fails on an
    exhausted buffer and on a byte that is no [bool]. *)
#[export] Instance input_archive : Archive Input := {
  value1b s _ :=
    match remaining s with
    | x00 :: rest => Some ({| remaining := rest |}, false)
    | x01 :: rest => Some ({| remaining := rest |}, true)
    | _ => None
    end
}.

(** The interfaces a component can be asked for. *)
Inductive InterfaceId : Type :=
| IUnitHandler_iid
| IUnitHandler2_iid
| other_iid (n : nat).

(** A real component ([Steinberg::FUnknown]), as far as a probe sees it:
    for which interfaces [queryInterface] succeeds. *)
Record FUnknown : Type := {
  implements : InterfaceId -> bool
}.

(** Modelled from the spec: the constructor
    [ConstructArgs(Steinberg::IPtr<Steinberg::FUnknown> object)] is declared
    in the header and defined in unit-handler-2.cpp.  Header and spec have it
    check whether the object implements [IUnitHandler2]; the answer is
    recorded in [supported] and never thrown. *)
Definition probe (object : FUnknown) : ConstructArgs :=
  {| supported := implements object IUnitHandler2_iid |}.

(** [class YaUnitHandler2], with its protected member [arguments];
    [Build_YaUnitHandler2] is [YaUnitHandler2(const ConstructArgs&& args)]. *)
Record YaUnitHandler2 : Type := {
  arguments : ConstructArgs
}.

(** [inline bool supported() const { return arguments.supported; }] *)
Definition is_supported (self : YaUnitHandler2) : bool :=
  supported (arguments self).

(** The channel to the other process: how many round trips were issued, and
    what the remote component answers to the next ones ([None] when the
    round trip cannot complete). *)
Record Transport : Type := {
  round_trips : nat;
  answers : nat -> option Z
}.

Inductive Outcome : Type :=
| Returned (result : Z)     (* what the remote component returned *)
| UnsupportedInterface
| RemoteCallError.

Definition round_trip (t : Transport) : Outcome * Transport :=
  (match answers t (round_trips t) with
   | Some r => Returned r
   | None => RemoteCallError
   end,
   {| round_trips := S (round_trips t); answers := answers t |}).

(** Modelled from the spec: [notifyUnitByBusChange()] is pure virtual in
    [YaUnitHandler2]; the proxy class that implements it is defined
    elsewhere.  The spec has a mirrored operation on an unsupported interface
    report UnsupportedInterface instead of attempting a round trip, and
    otherwise return what the remote component returned, or RemoteCallError
    when the round trip cannot complete. *)
Definition notifyUnitByBusChange (self : YaUnitHandler2) (t : Transport)
    : Outcome * Transport :=
  if is_supported self then round_trip t else (UnsupportedInterface, t).

(** Several [ConstructArgs] objects serialized one after the other through
    the same archive. *)
Fixpoint serialize_all {S : Type} `{Archive S} (s : S)
    (objects : list ConstructArgs) : option (S * list ConstructArgs) :=
  match objects with
  | [] => Some (s, [])
  | object :: rest =>
      match serialize s object with
      | Some (s1, object') =>
          match serialize_all s1 rest with
          | Some (s2, rest') => Some (s2, object' :: rest')
          | None => None
          end
      | None => None
      end
  end.

(** A component with only [IUnitHandler]. *)
Definition plain_component : FUnknown :=
  {| implements := fun iid =>
       match iid with IUnitHandler_iid => true | _ => false end |}.

Definition idle_transport : Transport :=
  {| round_trips := 0; answers := fun _ => Some 0%Z |}.

(** C4.  For a component that does not implement [IUnitHandler2] the probe
    gives [supported() == false], and the mirrored operation of the proxy
    built from it reports UnsupportedInterface and leaves the transport as it
    was: no round trip is issued. *)
Theorem unsupported_interface_fails_fast (object : FUnknown) (t : Transport) :
  implements object IUnitHandler2_iid = false ->
  is_supported {| arguments := probe object |} = false /\
  notifyUnitByBusChange {| arguments := probe object |} t
    = (UnsupportedInterface, t) /\
  round_trips (snd (notifyUnitByBusChange {| arguments := probe object |} t))
    = round_trips t.
Proof.
  intros Hno. unfold notifyUnitByBusChange, is_supported, probe; cbn.
  rewrite Hno. auto.
Qed.

(** C5.  Serializing a [ConstructArgs] writes exactly one byte, the byte of
    [supported]; reading that byte back into any [ConstructArgs] object gives
    the value that was written, with nothing left in the buffer. *)
Theorem construct_args_round_trip (args scratch : ConstructArgs) :
  exists b : byte,
    serialize {| written := [] |} args = Some ({| written := [b] |}, args) /\
    b = byte_of_bool (supported args) /\
    length [b] = 1%nat /\
    serialize {| remaining := [b] |} scratch
      = Some ({| remaining := [] |}, args).
Proof.
  destruct args as [[|]], scratch as [s0]; eexists; cbn; repeat split.
Qed.

Lemma unsupported_interface_fails_fast_witness :
  implements plain_component IUnitHandler2_iid = false /\
  is_supported {| arguments := probe plain_component |} = false /\
  notifyUnitByBusChange {| arguments := probe plain_component |} idle_transport
    = (UnsupportedInterface, idle_transport) /\
  round_trips (snd (notifyUnitByBusChange
                      {| arguments := probe plain_component |} idle_transport))
    = 0%nat.
Proof.
  split; [reflexivity|].
  apply (unsupported_interface_fails_fast plain_component idle_transport).
  reflexivity.
Defined.

Lemma byte_of_bool_inj (a b : bool) : byte_of_bool a = byte_of_bool b -> a = b.
Proof. destruct a, b; cbn; congruence. Qed.

Lemma serialize_write (prior : list byte) (args : ConstructArgs) :
  serialize {| written := prior |} args
    = Some ({| written := prior ++ [byte_of_bool (supported args)] |}, args).
Proof. destruct args as [b]. reflexivity. Qed.

Lemma serialize_read (rest : list byte) (args scratch : ConstructArgs) :
  serialize {| remaining := byte_of_bool (supported args) :: rest |} scratch
    = Some ({| remaining := rest |}, args).
Proof. destruct args as [[|]]; reflexivity. Qed.

(** X10.  In the middle of a stream [serialize] touches one byte only:
    writing appends the byte of [supported] to what was written and leaves
    the object as it is, reading takes that byte and leaves the bytes after
    it.  Objects that differ never give the same output. *)
Theorem serialize_takes_one_byte
    (prior rest : list byte) (args other scratch : ConstructArgs) :
  serialize {| written := prior |} args
    = Some ({| written := prior ++ [byte_of_bool (supported args)] |}, args) /\
  serialize {| remaining := byte_of_bool (supported args) :: rest |} scratch
    = Some ({| remaining := rest |}, args) /\
  (option_map fst (serialize {| written := prior |} args)
     = option_map fst (serialize {| written := prior |} other) ->
   args = other).
Proof.
  split; [apply serialize_write|]. split; [apply serialize_read|].
  rewrite !serialize_write. cbn [option_map fst]. intros Heq.
  inversion Heq as [Hw]. apply app_inv_head in Hw. inversion Hw as [Hb].
  apply byte_of_bool_inj in Hb. destruct args, other; cbn in Hb; congruence.
Qed.

(** X11.  Objects serialized one after the other are written as one byte
    each, in order, and reading that many objects back from those bytes
    gives the objects that were written, with what follows left in the
    buffer. *)
Theorem serialize_all_round_trip
    (prior rest : list byte) (objects scratch : list ConstructArgs) :
  length scratch = length objects ->
  serialize_all {| written := prior |} objects
    = Some ({| written := prior ++ map (fun o => byte_of_bool (supported o)) objects |},
            objects) /\
  serialize_all
    {| remaining := map (fun o => byte_of_bool (supported o)) objects ++ rest |}
    scratch
    = Some ({| remaining := rest |}, objects).
Proof.
  intros Hlen. split.
  - clear Hlen scratch rest. revert prior.
    induction objects as [|o objects IH]; intros prior; cbn [serialize_all map].
    + rewrite app_nil_r. reflexivity.
    + rewrite serialize_write, IH, <- app_assoc. reflexivity.
  - revert scratch Hlen.
    induction objects as [|o objects IH]; intros [|s scratch] Hlen;
      cbn [length] in Hlen; try discriminate; cbn [serialize_all map app].
    + reflexivity.
    + rewrite serialize_read, IH by congruence. reflexivity.
Qed.

Lemma serialize_all_round_trip_witness :
  serialize_all {| written := [x2a] |}
    [{| supported := true |}; {| supported := false |}]
    = Some ({| written := [x2a; x01; x00] |},
            [{| supported := true |}; {| supported := false |}]) /\
  serialize_all {| remaining := [x01; x00; x2a] |}
    [{| supported := false |}; {| supported := false |}]
    = Some ({| remaining := [x2a] |},
            [{| supported := true |}; {| supported := false |}]).
Proof.
  apply (serialize_all_round_trip [x2a] [x2a]
           [{| supported := true |}; {| supported := false |}]
           [{| supported := false |}; {| supported := false |}]).
  reflexivity.
Defined.

End UnitHandler2.

(** ** Win32Thread and Win32Timer *)

Module Win32.

(** The native calls of interest, logged newest first. *)
Inductive NativeCall : Type :=
| CreateThread (parameter : nat)
| CloseHandle (h : nat)
| SetTimer (window_handle timer_id interval_ms : nat)
| KillTimer (window_handle timer_id : nat).

(** [class Win32Thread]: its one member
    [std::unique_ptr<std::remove_pointer_t<HANDLE>, decltype(&CloseHandle)> handle],
    [None] being the null pointer. *)
Record Win32Thread : Type := {
  handle : option nat
}.

(** [class Win32Timer]: [HWND window_handle] and
    [std::optional<size_t> timer_id]. *)
Record Win32Timer : Type := {
  window_handle : nat;
  timer_id : option nat
}.

(** [~Win32Thread()] is implicit: it destroys [handle], and a [unique_ptr]
    calls its deleter, here [CloseHandle], exactly when it is not null. *)
Definition Win32Thread_destroy (self : Win32Thread) (calls : list NativeCall)
    : list NativeCall :=
  match handle self with
  | Some h => CloseHandle h :: calls
  | None => calls
  end.

(** Modelled from the spec: [Win32Thread(Win32Thread&&)] and
    [operator=(Win32Thread&&)] are declared in utils.h and defined in
    utils.cpp.  The spec: moving transfers handle ownership, a moved-from
    instance owns nothing.  The result is the instance moved into (one that
    owned nothing before) and the instance moved from. *)
Definition Win32Thread_move (other : Win32Thread) : Win32Thread * Win32Thread :=
  ({| handle := handle other |}, {| handle := None |}).

(** Modelled from the spec: the constructor of [Win32Timer] is defined in
    utils.cpp.  The spec: construction arms a timer identified by
    [(window_handle, timer_id)] firing every [interval_ms]. *)
Definition Win32Timer_new (hwnd id interval_ms : nat) (calls : list NativeCall)
    : Win32Timer * list NativeCall :=
  ({| window_handle := hwnd; timer_id := Some id |},
   SetTimer hwnd id interval_ms :: calls).

(** Modelled from the spec: [~Win32Timer()] is defined in utils.cpp.  The
    spec: destruction disarms the timer if it is still armed; an instance
    that has been moved from owns no timer and disarms nothing. *)
Definition Win32Timer_destroy (self : Win32Timer) (calls : list NativeCall)
    : list NativeCall :=
  match timer_id self with
  | Some id => KillTimer (window_handle self) id :: calls
  | None => calls
  end.

(** Modelled from the spec: [Win32Timer(Win32Timer&&)] and
    [operator=(Win32Timer&&)] are defined in utils.cpp.  The spec: move-only,
    and a moved-from instance owns no timer. *)
Definition Win32Timer_move (other : Win32Timer) : Win32Timer * Win32Timer :=
  ({| window_handle := window_handle other; timer_id := timer_id other |},
   {| window_handle := window_handle other; timer_id := None |}).

Section WithFunction.

(** [Function], the type of the thread's entry function.  The model never
    looks inside it; it records with which values it gets called. *)
Context {Fn : Type}.

(** The [std::function<void()>] built on lines 181-184 from the lambda
    [[&, f = std::move(f)]() { std::invoke(f, decay_copy(std::forward<Args>(args))...); }]:
    the lambda owns [f], and it holds each argument by reference, that is,
    the address of the object the constructor's parameter is bound to. *)
Record Closure : Type := {
  f : Fn;
  args : list nat
}.

(** The process, as far as starting a thread is concerned. *)
Record Process : Type := {
  objects : gmap nat Z;          (* the live objects of the creating thread *)
  heap : gmap nat Closure;       (* the closures allocated with [new] *)
  allocated : nat;               (* how many were ever allocated *)
  created : list nat;            (* threads created and not yet running *)
  invoked : list (Fn * list Z);  (* the calls [std::invoke(f, values...)] *)
  native : list NativeCall
}.

(** [Win32Thread(Function&& f, Args&&... args)], lines 169-187: allocate
    the closure, hand its address to [CreateThread] as the parameter of
    [win32_thread_trampoline], and own the handle that comes back.  The
    handle is named after the closure's address.  [CreateThread] can fail
    and then returns a null handle ([thread_created] is [false]); the
    constructor does not look at the result, so the closure stays where it
    is, with no thread to run and free it. *)
Definition Win32Thread_start (thread_created : bool) (fn : Fn)
    (arg_objects : list nat) (p : Process) : Win32Thread * Process :=
  let entry_point := allocated p in
  ({| handle := if thread_created then Some entry_point else None |},
   {| objects := objects p;
      heap := <[entry_point := {| f := fn; args := arg_objects |}]> (heap p);
      allocated := S (allocated p);
      created := if thread_created then created p ++ [entry_point]
                 else created p;
      invoked := invoked p;
      native := CreateThread entry_point :: native p |}).

(** The body of the lambda, run when the closure is called: every argument
    is read through its reference and copied ([decay_copy]), then [f] is
    invoked on the copies.  Reading an object whose lifetime has ended is
    undefined: [None]. *)
Definition call_closure (c : Closure) (p : Process) : option Process :=
  match mapM (fun a => objects p !! a) (args c) with
  | Some values =>
      Some {| objects := objects p; heap := heap p; allocated := allocated p;
              created := created p;
              invoked := (f c, values) :: invoked p;
              native := native p |}
  | None => None
  end.

(** Modelled from the spec: [win32_thread_trampoline] is declared on line
    128 and defined in utils.cpp.  Header and spec: it receives the pointer
    to the closure, invokes it, and deallocates it after completion. *)
Definition win32_thread_trampoline (entry_point : nat) (p : Process)
    : option Process :=
  match heap p !! entry_point with
  | Some c =>
      match call_closure c p with
      | Some p' =>
          Some {| objects := objects p';
                  heap := delete entry_point (heap p');
                  allocated := allocated p'; created := created p';
                  invoked := invoked p'; native := native p' |}
      | None => None
      end
  | None => None
  end.

(** What happens around the start of a thread. *)
Inductive Op : Type :=
| Start (fn : Fn) (arg_objects : list nat)   (* [Win32Thread t(fn, args...)] *)
| Assign (a : nat) (v : Z)                   (* the creating thread writes *)
| EndOfLife (a : nat)                        (* an object's lifetime ends *)
| ThreadRuns (entry_point : nat)             (* the new thread gets to run *)
| StartFails (fn : Fn) (arg_objects : list nat).
                                    (* the same, [CreateThread] failing *)

Definition exec_op (o : Op) (p : Process) : option Process :=
  match o with
  | Start fn arg_objects =>
      Some (snd (Win32Thread_start true fn arg_objects p))
  | StartFails fn arg_objects =>
      Some (snd (Win32Thread_start false fn arg_objects p))
  | Assign a v =>
      match objects p !! a with
      | Some _ =>
          Some {| objects := <[a := v]> (objects p); heap := heap p;
                  allocated := allocated p; created := created p;
                  invoked := invoked p; native := native p |}
      | None => None
      end
  | EndOfLife a =>
      Some {| objects := delete a (objects p); heap := heap p;
              allocated := allocated p; created := created p;
              invoked := invoked p; native := native p |}
  | ThreadRuns entry_point =>
      if existsb (Nat.eqb entry_point) (created p) then
        win32_thread_trampoline entry_point
          {| objects := objects p; heap := heap p;
             allocated := allocated p;
             created := List.filter (fun q => negb (Nat.eqb entry_point q))
                                    (created p);
             invoked := invoked p; native := native p |}
      else None
  end.

Fixpoint exec (ops : list Op) (p : Process) : option Process :=
  match ops with
  | [] => Some p
  | o :: rest =>
      match exec_op o p with
      | Some p' => exec rest p'
      | None => None
      end
  end.

(** A process that has started nothing, with the given live objects. *)
Definition process_with (objs : gmap nat Z) : Process :=
  {| objects := objs; heap := ∅; allocated := 0; created := [];
     invoked := []; native := [] |}.

(** The threads that get to run in [ops], by entry point, in order. *)
Fixpoint ran (ops : list Op) : list nat :=
  match ops with
  | [] => []
  | ThreadRuns entry_point :: rest => entry_point :: ran rest
  | _ :: rest => ran rest
  end.

(** The closures left behind by the constructions of [ops] whose
    [CreateThread] failed, [next] being the address the next closure gets. *)
Fixpoint orphaned (next : nat) (ops : list Op) : list nat :=
  match ops with
  | [] => []
  | Start _ _ :: rest => orphaned (S next) rest
  | StartFails _ _ :: rest => next :: orphaned (S next) rest
  | _ :: rest => orphaned next rest
  end.

(** The closures on the heap are those of the threads created and not yet
    running and the [orphans], whose thread was never created; each thread
    is listed once, no orphan has a thread, and every closure ever allocated
    has been invoked, waits for its thread, or is an orphan. *)
Definition tidy (orphans : list nat) (p : Process) : Prop :=
  (forall q, is_Some (heap p !! q) <-> In q (created p) \/ In q orphans) /\
  List.NoDup (created p) /\
  Forall (fun q => q < allocated p)%nat (created p) /\
  Forall (fun q => q < allocated p)%nat orphans /\
  (forall q, In q orphans -> ~ In q (created p)) /\
  (length (invoked p) + length (created p) + length orphans
   = allocated p)%nat.

End WithFunction.

Arguments Closure Fn : clear implicits.
Arguments Process Fn : clear implicits.
Arguments Op Fn : clear implicits.

(** *** Concrete cases *)

(** One object, at address 0, holding 1. *)
Definition one_object : Process nat := process_with {[ 0%nat := 1%Z ]}.

(** [int x = 1; Win32Thread t(fn, x); x = 2;] and then the thread runs. *)
Definition assigned_before_run : list (Op nat) :=
  [Start 7%nat [0%nat]; Assign 0%nat 2%Z; ThreadRuns 0%nat].

(** [Win32Thread t(fn, 1);]: the temporary is gone when the thread runs. *)
Definition temporary_argument : list (Op nat) :=
  [Start 7%nat [0%nat]; EndOfLife 0%nat; ThreadRuns 0%nat].

(** A construction whose [CreateThread] fails, between two that succeed;
    both threads run. *)
Definition one_start_fails : list (Op nat) :=
  [Start 7%nat [0%nat]; StartFails 8%nat [0%nat]; Start 9%nat [0%nat];
   ThreadRuns 2%nat; ThreadRuns 0%nat].

(** Two threads started on the same argument, which is assigned to before
    they run, the second thread first. *)
Definition two_threads : list (Op nat) :=
  [Start 7%nat [0%nat]; Start 8%nat [0%nat]; Assign 0%nat 5%Z;
   ThreadRuns 1%nat; ThreadRuns 0%nat].

(** The process a sequence of operations ends in; the starting process when
    the sequence is impossible. *)
Definition result (ops : list (Op nat)) (p : Process nat) : Process nat :=
  match exec ops p with Some p' => p' | None => p end.

Definition p_two : Process nat := result two_threads one_object.

Definition p_one_failed : Process nat := result one_start_fails one_object.

Definition p_one_started : Process nat := result [Start 7%nat [0%nat]] one_object.

(** A second thread started after the first; the first runs, then the
    second. *)
Definition p_second_ran : Process nat :=
  result [Start 8%nat [0%nat]; Assign 0%nat 5%Z; ThreadRuns 0%nat;
          ThreadRuns 1%nat] p_one_started.

Section Facts.

Context {Fn : Type}.

(** When the objects the arguments refer to are still what they were at
    construction, the trampoline invokes the function once, on those values,
    and the closure is deallocated. *)
Lemma thread_runs_closure_once
    (fn : Fn) (arg_objects : list nat) (values : list Z) (p : Process Fn) :
  mapM (fun a => objects p !! a) arg_objects = Some values ->
  created p = [] ->
  exists p',
    exec [Start fn arg_objects; ThreadRuns (allocated p)] p = Some p' /\
    invoked p' = (fn, values) :: invoked p /\
    heap p' !! allocated p = None /\
    created p' = [].
Proof.
  intros Hvalues Hcreated.
  cbn [exec exec_op Win32Thread_start snd created]. rewrite Hcreated.
  cbn [app existsb List.filter]. rewrite !Nat.eqb_refl. cbn [orb negb].
  unfold win32_thread_trampoline. cbn [heap].
  rewrite lookup_insert_eq. unfold call_closure. cbn [args objects].
  rewrite Hvalues. eexists; split; [reflexivity|]. cbn.
  split; [reflexivity|]. split; [apply lookup_delete_eq|reflexivity].
Qed.

(** *** Closures and threads *)

Lemma filter_out_length (q : nat) (l : list nat) :
  List.NoDup l -> In q l ->
  S (length (List.filter (fun r => negb (Nat.eqb q r)) l)) = length l.
Proof.
  induction l as [|x l IH]; intros Hnd Hin; [destruct Hin|].
  inversion Hnd as [|y l' Hx Hl]; subst. cbn [List.filter].
  destruct (Nat.eqb_spec q x) as [->|Hne]; cbn [negb length].
  - f_equal. clear IH Hnd Hin Hl. induction l as [|y l IH]; [reflexivity|].
    cbn [List.filter]. destruct (Nat.eqb_spec x y) as [->|Hne]; cbn [negb].
    + exfalso. apply Hx. left. reflexivity.
    + cbn [length]. f_equal. apply IH. intros Hin. apply Hx. right. exact Hin.
  - f_equal. apply IH; [exact Hl|]. destruct Hin as [->|Hin]; [congruence|exact Hin].
Qed.

(** What each operation needs and does. *)
Lemma exec_op_cases (o : Op Fn) (p p' : Process Fn) :
  exec_op o p = Some p' ->
  match o with
  | Start fn arg_objects =>
      objects p' = objects p /\
      heap p' = <[allocated p := {| f := fn; args := arg_objects |}]> (heap p) /\
      allocated p' = S (allocated p) /\
      created p' = created p ++ [allocated p] /\
      invoked p' = invoked p
  | StartFails fn arg_objects =>
      objects p' = objects p /\
      heap p' = <[allocated p := {| f := fn; args := arg_objects |}]> (heap p) /\
      allocated p' = S (allocated p) /\
      created p' = created p /\
      invoked p' = invoked p
  | Assign a v =>
      is_Some (objects p !! a) /\ objects p' = <[a := v]> (objects p) /\
      heap p' = heap p /\ allocated p' = allocated p /\
      created p' = created p /\ invoked p' = invoked p
  | EndOfLife a =>
      objects p' = delete a (objects p) /\
      heap p' = heap p /\ allocated p' = allocated p /\
      created p' = created p /\ invoked p' = invoked p
  | ThreadRuns q =>
      In q (created p) /\
      exists c values,
        heap p !! q = Some c /\
        mapM (fun a => objects p !! a) (args c) = Some values /\
        objects p' = objects p /\ heap p' = delete q (heap p) /\
        allocated p' = allocated p /\
        created p' = List.filter (fun r => negb (Nat.eqb q r)) (created p) /\
        invoked p' = (f c, values) :: invoked p
  end.
Proof.
  destruct o as [fn arg_objects|a v|a|q|fn arg_objects]; cbn [exec_op];
    intros H.
  - inversion H; subst; clear H. cbn. auto.
  - destruct (objects p !! a) eqn:Ha; [|discriminate].
    inversion H; subst; clear H. cbn. eauto 10.
  - inversion H; subst; clear H. cbn. auto.
  - destruct (existsb (Nat.eqb q) (created p)) eqn:Hex; [|discriminate].
    apply List.existsb_exists in Hex as (r & Hin & Hr).
    apply Nat.eqb_eq in Hr. subst r. split; [exact Hin|].
    unfold win32_thread_trampoline, call_closure in H. cbn in H.
    destruct (heap p !! q) as [c|]; [|discriminate].
    destruct (mapM (fun a => objects p !! a) (args c)) as [values|] eqn:Hv;
      [|discriminate].
    inversion H; subst; clear H. cbn. exists c, values. auto 10.
  - inversion H; subst; clear H. cbn. auto.
Qed.

Lemma tidy_start (objs : gmap nat Z) : tidy [] (@process_with Fn objs).
Proof.
  unfold tidy, process_with; cbn.
  split; [|split; [constructor|split; [constructor|split; [constructor|]]]].
  - intros q. split.
    + intros [c Hc]. rewrite lookup_empty in Hc. discriminate.
    + intros [[]|[]].
  - split; [intros q []|reflexivity].
Qed.

(** How far the next address moves with one operation. *)
Lemma allocated_step (o : Op Fn) (p p' : Process Fn) :
  exec_op o p = Some p' ->
  forall ops,
    orphaned (allocated p) (o :: ops)
      = orphaned (allocated p) [o] ++ orphaned (allocated p') ops.
Proof.
  intros H ops. apply exec_op_cases in H.
  destruct o as [fn arg_objects|a v|a|q|fn arg_objects]; cbn [orphaned app].
  - destruct H as (_ & _ & -> & _). reflexivity.
  - destruct H as (_ & _ & _ & -> & _). reflexivity.
  - destruct H as (_ & _ & -> & _). reflexivity.
  - destruct H as (_ & c & values & _ & _ & _ & _ & -> & _). reflexivity.
  - destruct H as (_ & _ & -> & _). reflexivity.
Qed.

Lemma tidy_step (orphans : list nat) (o : Op Fn) (p p' : Process Fn) :
  tidy orphans p -> exec_op o p = Some p' ->
  tidy (orphans ++ orphaned (allocated p) [o]) p'.
Proof.
  intros (Hheap & Hnd & Hlt & Hlo & Hdis & Hcount) H.
  apply exec_op_cases in H. unfold tidy.
  rewrite List.Forall_forall in Hlt, Hlo.
  destruct o as [fn arg_objects|a v|a|q|fn arg_objects];
    cbn [orphaned]; rewrite ?app_nil_r.
  - destruct H as (_ & -> & -> & -> & ->).
    assert (Hfresh : ~ In (allocated p) (created p)).
    { intros Hin. specialize (Hlt _ Hin). lia. }
    assert (Hfresh' : ~ In (allocated p) orphans).
    { intros Hin. specialize (Hlo _ Hin). lia. }
    repeat split.
    + rewrite lookup_insert_is_Some, in_app_iff, Hheap. cbn [In].
      intros [->|[_ [Hin|Hin]]]; auto.
    + rewrite lookup_insert_is_Some, in_app_iff, Hheap. cbn [In].
      intros [[Hin|[->|[]]]|Hin]; auto;
        destruct (Nat.eq_dec (allocated p) q); auto.
    + apply List.NoDup_app; [exact Hnd|repeat constructor; intros []|].
      intros x Hin [<-|[]]. exact (Hfresh Hin).
    + apply List.Forall_forall. intros x Hx.
      apply in_app_iff in Hx as [Hx|[<-|[]]]; [specialize (Hlt _ Hx)|]; lia.
    + apply List.Forall_forall. intros x Hx. specialize (Hlo _ Hx). lia.
    + intros x Hx Hc. apply in_app_iff in Hc as [Hc|[<-|[]]].
      * exact (Hdis _ Hx Hc).
      * exact (Hfresh' Hx).
    + rewrite length_app. cbn [length]. lia.
  - destruct H as (_ & _ & -> & -> & -> & ->).
    split; [exact Hheap|]. split; [exact Hnd|].
    split; [apply List.Forall_forall; exact Hlt|].
    split; [apply List.Forall_forall; exact Hlo|].
    split; [exact Hdis|exact Hcount].
  - destruct H as (_ & -> & -> & -> & ->).
    split; [exact Hheap|]. split; [exact Hnd|].
    split; [apply List.Forall_forall; exact Hlt|].
    split; [apply List.Forall_forall; exact Hlo|].
    split; [exact Hdis|exact Hcount].
  - destruct H as (Hin & c & values & _ & _ & _ & -> & -> & -> & ->).
    repeat split.
    + rewrite lookup_delete_is_Some, List.filter_In, Hheap.
      intros [Hne [Hq|Hq]]; [left|right; exact Hq]. split; [exact Hq|].
      apply negb_true_iff, Nat.eqb_neq. exact Hne.
    + rewrite lookup_delete_is_Some, List.filter_In, Hheap.
      intros [[Hq Hne]|Hq].
      * apply negb_true_iff, Nat.eqb_neq in Hne. auto.
      * split; [|auto]. intros <-. exact (Hdis _ Hq Hin).
    + apply List.NoDup_filter. exact Hnd.
    + apply List.Forall_forall. intros x Hx.
      apply List.filter_In in Hx as [Hx _]. auto.
    + apply List.Forall_forall. assumption.
    + intros x Hx Hc. apply List.filter_In in Hc as [Hc _].
      exact (Hdis _ Hx Hc).
    + cbn [length]. pose proof (filter_out_length q _ Hnd Hin). lia.
  - destruct H as (_ & -> & -> & -> & ->).
    assert (Hfresh : ~ In (allocated p) (created p)).
    { intros Hin. specialize (Hlt _ Hin). lia. }
    repeat split.
    + rewrite lookup_insert_is_Some, in_app_iff, Hheap. cbn [In].
      intros [->|[_ [Hin|Hin]]]; auto.
    + rewrite lookup_insert_is_Some, in_app_iff, Hheap. cbn [In].
      intros [Hin|[Hin|[->|[]]]]; auto;
        destruct (Nat.eq_dec (allocated p) q); auto.
    + exact Hnd.
    + apply List.Forall_forall. intros x Hx. specialize (Hlt _ Hx). lia.
    + apply List.Forall_forall. intros x Hx.
      apply in_app_iff in Hx as [Hx|[<-|[]]]; [specialize (Hlo _ Hx)|]; lia.
    + intros x Hx Hc. apply in_app_iff in Hx as [Hx|[<-|[]]].
      * exact (Hdis _ Hx Hc).
      * exact (Hfresh Hc).
    + rewrite length_app. cbn [length]. lia.
Qed.

Lemma exec_tidy (ops : list (Op Fn)) (orphans : list nat) (p p' : Process Fn) :
  tidy orphans p -> exec ops p = Some p' ->
  tidy (orphans ++ orphaned (allocated p) ops) p'.
Proof.
  revert orphans p; induction ops as [|o ops IH]; intros orphans p Htidy Hex;
    cbn [exec] in Hex.
  - inversion Hex; subst. cbn [orphaned]. rewrite app_nil_r. exact Htidy.
  - destruct (exec_op o p) as [p1|] eqn:Ho; [|discriminate].
    rewrite (allocated_step _ _ _ Ho), app_assoc.
    apply IH; [|exact Hex]. eapply tidy_step; eassumption.
Qed.

Lemma exec_invariant (P : Process Fn -> Prop) :
  (forall o p p', P p -> exec_op o p = Some p' -> P p') ->
  forall ops p p', P p -> exec ops p = Some p' -> P p'.
Proof.
  intros Hstep ops; induction ops as [|o ops IH]; intros p p' HP Hex;
    cbn [exec] in Hex.
  - congruence.
  - destruct (exec_op o p) as [p1|] eqn:Ho; [|discriminate].
    eapply IH; [eapply Hstep|]; eassumption.
Qed.

Lemma exec_app (ops1 ops2 : list (Op Fn)) (p : Process Fn) :
  exec (ops1 ++ ops2) p =
  match exec ops1 p with Some p' => exec ops2 p' | None => None end.
Proof.
  revert p; induction ops1 as [|o ops1 IH]; intros p; cbn [app exec].
  - reflexivity.
  - destruct (exec_op o p); [apply IH|reflexivity].
Qed.

Lemma exec_ran (ops : list (Op Fn)) (orphans : list nat) (p p' : Process Fn) :
  tidy orphans p -> exec ops p = Some p' ->
  List.NoDup (ran ops) /\
  (forall q, In q (ran ops) -> In q (created p) \/ (allocated p <= q)%nat) /\
  length (invoked p') = (length (ran ops) + length (invoked p))%nat.
Proof.
  revert orphans p; induction ops as [|o ops IH]; intros orphans p Htidy Hex;
    cbn [exec] in Hex.
  - inversion Hex; subst. cbn. repeat split; [constructor|intros q []].
  - destruct (exec_op o p) as [p1|] eqn:Ho; [|discriminate].
    pose proof (tidy_step _ _ _ _ Htidy Ho) as Htidy1.
    destruct (IH _ p1 Htidy1 Hex) as (Hnd & Hwhere & Hlen).
    apply exec_op_cases in Ho.
    destruct o as [fn arg_objects|a v|a|q0|fn arg_objects]; cbn [ran].
    + destruct Ho as (_ & _ & Hal & Hcr & Hinv). rewrite Hinv in Hlen.
      split; [exact Hnd|]. split; [|exact Hlen].
      intros q Hq. destruct (Hwhere q Hq) as [Hin|Hge]; [|right; lia].
      rewrite Hcr in Hin. apply in_app_iff in Hin as [Hin|[<-|[]]]; auto.
    + destruct Ho as (_ & _ & _ & Hal & Hcr & Hinv).
      rewrite Hal, Hcr in Hwhere. rewrite Hinv in Hlen. auto.
    + destruct Ho as (_ & _ & Hal & Hcr & Hinv).
      rewrite Hal, Hcr in Hwhere. rewrite Hinv in Hlen. auto.
    + destruct Ho as (Hin & c & values & _ & _ & _ & _ & Hal & Hcr & Hinv).
      destruct Htidy as (_ & _ & Hlt & _). rewrite List.Forall_forall in Hlt.
      rewrite Hal, Hcr in Hwhere. rewrite Hinv in Hlen. cbn [length] in *.
      split; [|split; [|lia]].
      * constructor; [|exact Hnd]. intros Hq0.
        destruct (Hwhere q0 Hq0) as [Hf|Hge].
        -- apply List.filter_In in Hf as [_ Hf]. rewrite Nat.eqb_refl in Hf.
           discriminate.
        -- specialize (Hlt q0 Hin). lia.
      * intros q [<-|Hq]; [auto|].
        destruct (Hwhere q Hq) as [Hf|Hge]; [|auto].
        apply List.filter_In in Hf as [Hf _]. auto.
    + destruct Ho as (_ & _ & Hal & Hcr & Hinv). rewrite Hinv in Hlen.
      split; [exact Hnd|]. split; [|exact Hlen].
      intros q Hq. destruct (Hwhere q Hq) as [Hin|Hge]; [|right; lia].
      rewrite Hcr in Hin. auto.
Qed.

Lemma closure_kept (q : nat) (c : Closure Fn) (ops : list (Op Fn))
    (p p' : Process Fn) :
  (q < allocated p)%nat -> heap p !! q = Some c ->
  exec ops p = Some p' ->
  heap p' !! q = Some c \/ heap p' !! q = None.
Proof.
  intros Hlt Hc Hex.
  assert (Hinv : (q < allocated p')%nat /\
                 (heap p' !! q = Some c \/ heap p' !! q = None)).
  { refine (exec_invariant
              (fun p => (q < allocated p)%nat /\
                        (heap p !! q = Some c \/ heap p !! q = None))
              _ ops p p' _ Hex); [|auto].
    clear. intros o p p' (Hlt & Hc) Ho.
    apply exec_op_cases in Ho.
    destruct o as [fn arg_objects|a v|a|r|fn arg_objects].
    - destruct Ho as (_ & -> & -> & _). split; [lia|].
      rewrite lookup_insert_ne by lia. exact Hc.
    - destruct Ho as (_ & _ & -> & -> & _). auto.
    - destruct Ho as (_ & -> & -> & _). auto.
    - destruct Ho as (_ & c' & values & _ & _ & _ & -> & -> & _).
      split; [exact Hlt|]. destruct (Nat.eq_dec r q) as [->|Hne].
      + right. apply lookup_delete_eq.
      + rewrite lookup_delete_ne by exact Hne. exact Hc.
    - destruct Ho as (_ & -> & -> & _). split; [lia|].
      rewrite lookup_insert_ne by lia. exact Hc. }
  apply Hinv.
Qed.


(** X8.  No thread runs twice and each thread that ran invoked a function
    once.  Every closure ever allocated is accounted for: its function was
    invoked, or its thread still waits to run, or its [CreateThread] failed
    and it is an orphan. *)
Theorem each_thread_invokes_once
    (objs : gmap nat Z) (ops : list (Op Fn)) (p : Process Fn) :
  exec ops (process_with objs) = Some p ->
  List.NoDup (ran ops) /\
  length (invoked p) = length (ran ops) /\
  (length (invoked p) + length (created p) + length (orphaned 0 ops)
   = allocated p)%nat.
Proof.
  intros Hex.
  destruct (exec_ran ops [] _ p (tidy_start objs) Hex) as (Hnd & _ & Hlen).
  pose proof (exec_tidy ops [] _ p (tidy_start objs) Hex)
    as (_ & _ & _ & _ & _ & Hcount).
  cbn in Hlen, Hcount. repeat split; [exact Hnd|lia|exact Hcount].
Qed.

(** X9.  Whatever happens between the construction of a [Win32Thread] and
    the moment its thread runs, other threads being started and run
    included, the thread invokes the function it was constructed with, on
    the values the argument objects hold at that moment, and frees its
    closure. *)
Theorem thread_invokes_its_function
    (objs : gmap nat Z) (before ops : list (Op Fn)) (fn : Fn)
    (arg_objects : list nat) (p p' : Process Fn) :
  exec before (process_with objs) = Some p ->
  exec (Start fn arg_objects :: ops ++ [ThreadRuns (allocated p)]) p = Some p' ->
  exists p_mid values,
    exec (Start fn arg_objects :: ops) p = Some p_mid /\
    mapM (fun a => objects p_mid !! a) arg_objects = Some values /\
    invoked p' = (fn, values) :: invoked p_mid /\
    heap p' !! allocated p = None.
Proof.
  intros Hbefore Hex.
  rewrite app_comm_cons, exec_app in Hex.
  destruct (exec (Start fn arg_objects :: ops) p) as [p_mid|] eqn:Hmid;
    [|discriminate].
  cbn [exec] in Hex.
  destruct (exec_op (ThreadRuns (allocated p)) p_mid) as [p2|] eqn:Hrun;
    [|discriminate].
  inversion Hex; subst p2; clear Hex.
  apply exec_op_cases in Hrun.
  destruct Hrun as (_ & c & values & Hc & Hvalues & _ & Hheap & _ & _ & Hinv).
  cbn [exec] in Hmid.
  destruct (exec_op (Start fn arg_objects) p) as [p1|] eqn:Hstart;
    [|discriminate].
  apply exec_op_cases in Hstart. destruct Hstart as (_ & Hh1 & Ha1 & _).
  assert (Hkept : heap p_mid !! allocated p
                    = Some {| f := fn; args := arg_objects |} \/
                  heap p_mid !! allocated p = None).
  { apply (closure_kept _ _ ops p1 p_mid); [lia| |exact Hmid].
    rewrite Hh1. apply lookup_insert_eq. }
  destruct Hkept as [Hk|Hk]; rewrite Hk in Hc; [|discriminate].
  inversion Hc; subst c; clear Hc. cbn [f args] in *.
  exists p_mid, values. split; [reflexivity|]. split; [exact Hvalues|].
  split; [exact Hinv|]. rewrite Hheap. apply lookup_delete_eq.
Qed.

(** C7.  Moving any [Win32Thread] or [Win32Timer] leaves the instance moved
    from owning nothing, so that destroying it makes no native call, while
    the instance moved into owns what the original owned and its destruction
    makes the one call for it: [CloseHandle] on the handle, [KillTimer] on
    the timer.  Destroying both, in either order, makes that call once. *)
Theorem move_transfers_ownership
    (thread : Win32Thread) (timer : Win32Timer) (calls : list NativeCall) :
  let '(thread_to, thread_from) := Win32Thread_move thread in
  let '(timer_to, timer_from) := Win32Timer_move timer in
  (handle thread_from = None /\
   handle thread_to = handle thread /\
   Win32Thread_destroy thread_from calls = calls /\
   Win32Thread_destroy thread_to calls =
     match handle thread with
     | Some h => CloseHandle h :: calls
     | None => calls
     end /\
   Win32Thread_destroy thread_from (Win32Thread_destroy thread_to calls)
     = Win32Thread_destroy thread_to calls /\
   Win32Thread_destroy thread_to (Win32Thread_destroy thread_from calls)
     = Win32Thread_destroy thread_to calls) /\
  (timer_id timer_from = None /\
   timer_id timer_to = timer_id timer /\
   window_handle timer_to = window_handle timer /\
   Win32Timer_destroy timer_from calls = calls /\
   Win32Timer_destroy timer_to calls =
     match timer_id timer with
     | Some id => KillTimer (window_handle timer) id :: calls
     | None => calls
     end /\
   Win32Timer_destroy timer_from (Win32Timer_destroy timer_to calls)
     = Win32Timer_destroy timer_to calls /\
   Win32Timer_destroy timer_to (Win32Timer_destroy timer_from calls)
     = Win32Timer_destroy timer_to calls).
Proof. destruct thread as [[h|]], timer as [hwnd [id|]]; cbn; repeat split. Qed.

(** A thread handle and an armed timer, moved and then destroyed on both
    sides: one [CloseHandle], one [KillTimer]. *)
Example move_then_destroy_both :
  let '(thread_to, thread_from) := Win32Thread_move {| handle := Some 4%nat |} in
  let '(timer, calls) := Win32Timer_new 9 1 100 [] in
  let '(timer_to, timer_from) := Win32Timer_move timer in
  Win32Timer_destroy timer_to
    (Win32Timer_destroy timer_from
       (Win32Thread_destroy thread_from
          (Win32Thread_destroy thread_to calls)))
  = [KillTimer 9 1; CloseHandle 4; SetTimer 9 1 100].
Proof. reflexivity. Qed.

End Facts.

(** C6.  The closure does not hold copies of the arguments.  The argument is
    1 when the constructor runs; once the creating thread has assigned 2 to
    it, the function is invoked with 2.  When the argument was a temporary
    the new thread reads an object that no longer exists. *)
Theorem arguments_read_when_thread_runs :
  mapM (fun a => objects one_object !! a) [0%nat] = Some [1%Z] /\
  option_map invoked (exec assigned_before_run one_object)
    = Some [(7%nat, [2%Z])] /\
  exec temporary_argument one_object = None.
Proof. vm_compute. repeat split. Qed.


Lemma each_thread_invokes_once_witness :
  exec one_start_fails one_object = Some p_one_failed /\
  invoked p_one_failed = [(7%nat, [1%Z]); (9%nat, [1%Z])] /\
  allocated p_one_failed = 3%nat /\
  List.NoDup (ran one_start_fails) /\
  length (invoked p_one_failed) = length (ran one_start_fails) /\
  (length (invoked p_one_failed) + length (created p_one_failed)
   + length (orphaned 0 one_start_fails) = allocated p_one_failed)%nat.
Proof.
  split; [vm_compute; reflexivity|]. split; [vm_compute; reflexivity|].
  split; [vm_compute; reflexivity|].
  apply (each_thread_invokes_once {[ 0%nat := 1%Z ]} one_start_fails).
  vm_compute; reflexivity.
Defined.

Lemma thread_invokes_its_function_witness :
  exec [Start 7%nat [0%nat]] one_object = Some p_one_started /\
  allocated p_one_started = 1%nat /\
  exists p_mid values,
    exec (Start 8%nat [0%nat] :: [Assign 0%nat 5%Z; ThreadRuns 0%nat])
         p_one_started = Some p_mid /\
    mapM (fun a => objects p_mid !! a) [0%nat] = Some values /\
    invoked p_second_ran = (8%nat, values) :: invoked p_mid /\
    heap p_second_ran !! allocated p_one_started = None.
Proof.
  split; [vm_compute; reflexivity|]. split; [vm_compute; reflexivity|].
  apply (thread_invokes_its_function {[ 0%nat := 1%Z ]}
           [Start 7%nat [0%nat]] [Assign 0%nat 5%Z; ThreadRuns 0%nat]).
  - vm_compute; reflexivity.
  - vm_compute; reflexivity.
Defined.

End Win32.
